(** * The agents of [agent.py]: DQN exploration and the PPO rollout/update loop

    A shallow embedding of [DQN_Agent.epsilon_greedy_policy] and of
    [PPO_Agent] ([get_action], [train_step_ppo], [play_n_timesteps]).

    Numbers.  The program computes in float32.  Here every float is an exact
    rational ([Q]); results that differ only by rounding are identified, and
    a division by zero (NaN or an infinity in the program) has no faithful
    image, so statements about quotients carry a non-zero divisor.

    Collaborators.  The Keras networks, their optimizers and gradient tape,
    the TensorFlow-Probability sampler and the Gymnasium vector environment
    are interfaces (type classes below).  The modules [memory] and [utils]
    are imported by [agent.py] but are not part of the sources at hand; their
    parts used here are modelled from the specification and marked so. *)

From Stdlib Require Import QArith Qminmax ZArith Lia.
From stdpp Require Import base option list.

Local Open Scope Q_scope.

(** ** Numeric helpers *)

Definition sumQ (l : list Q) : Q := foldr Qplus 0 l.

(** [np.mean] / [tf.reduce_mean] of a flat sequence. *)
Definition meanQ (l : list Q) : Q := sumQ l / inject_Z (Z.of_nat (length l)).

(** ** Tensors of rank at most two, with NumPy/TensorFlow broadcasting *)

Module Tf.

Inductive Tensor :=
| Scalar (x : Q)
| Vec (v : list Q)
| Mat (m : list (list Q)).

Definition rank (t : Tensor) : nat :=
  match t with Scalar _ => 0 | Vec _ => 1 | Mat _ => 2 end.

(** A tensor seen with leading axes of size one added up to rank two. *)
Definition rows (t : Tensor) : list (list Q) :=
  match t with Scalar x => [[x]] | Vec v => [v] | Mat m => m end.

Definition entries (t : Tensor) : list Q := concat (rows t).

Definition of_rows (r : nat) (m : list (list Q)) : option Tensor :=
  match r, m with
  | O, [[x]] => Some (Scalar x)
  | 1%nat, [v] => Some (Vec v)
  | 2%nat, _ => Some (Mat m)
  | _, _ => None
  end.

(** One axis of a broadcasting binary operation: an axis of size one is
    stretched, equal sizes are paired, anything else is an error. *)
Definition bzip {A B C} (f : A → B → option C)
    (xs : list A) (ys : list B) : option (list C) :=
  match xs, ys with
  | [x], _ => mapM (f x) ys
  | _, [y] => mapM (λ x, f x y) xs
  | _, _ =>
      if decide (length xs = length ys)
      then mapM (λ p, f p.1 p.2) (zip xs ys)
      else None
  end.

Definition broadcast (f : Q → Q → Q) (a b : Tensor) : option Tensor :=
  m ← bzip (bzip (λ x y, Some (f x y))) (rows a) (rows b);
  of_rows (Nat.max (rank a) (rank b)) m.

Definition tmap (f : Q → Q) (t : Tensor) : Tensor :=
  match t with
  | Scalar x => Scalar (f x)
  | Vec v => Vec (map f v)
  | Mat m => Mat (map (map f) m)
  end.

Definition divide := broadcast Qdiv.
Definition multiply := broadcast Qmult.
Definition subtract := broadcast Qminus.
Definition minimum := broadcast Qmin.

(** [tf.clip_by_value t lo hi] is [minimum (maximum t lo) hi]. *)
Definition clip_by_value (t : Tensor) (lo hi : Q) : Tensor :=
  tmap (λ x, Qmin (Qmax x lo) hi) t.

Definition square : Tensor → Tensor := tmap (λ x, x * x).

Definition reduce_mean (t : Tensor) : Q := meanQ (entries t).

(** [.numpy().squeeze()]: every axis of size one is dropped. *)
Definition squeeze (t : Tensor) : Tensor :=
  match t with
  | Scalar x => Scalar x
  | Vec [x] => Scalar x
  | Vec v => Vec v
  | Mat [[x]] => Scalar x
  | Mat [v] => Vec v
  | Mat m =>
      match mapM (λ r, match r with [x] => Some x | _ => None end) m with
      | Some v => Vec v
      | None => Mat m
      end
  end.

(** [a[i]] on the first axis of an array of scalars; a zero-dimensional
    array cannot be indexed. *)
Definition index (t : Tensor) (i : nat) : option Q :=
  match t with
  | Vec v => v !! i
  | _ => None
  end.

(** The output of a [Dense(1)] head: one row per sample, one column. *)
Definition column (v : list Q) : Tensor := Mat (map (λ x, [x]) v).

End Tf.

(** ** Collaborators: networks, sampler, vector environment *)

(** The actor and critic networks with their optimizers and the gradient
    tape.  [actor_forward] returns one row of class probabilities per
    observation (the actor ends in a softmax layer); [critic_forward]
    returns the single output unit of the critic for each observation.
    A gradient has the shape of the variables it is taken for. *)
Class Networks (Obs : Type) := {
  ActorVars : Type;
  CriticVars : Type;
  OptimizerActor : Type;
  OptimizerCritic : Type;
  actor_forward : ActorVars → list Obs → list (list Q);
  critic_forward : CriticVars → list Obs → list Q;
  gradient_actor : (ActorVars → option Q) → ActorVars → ActorVars;
  gradient_critic : (CriticVars → option Q) → CriticVars → CriticVars;
  apply_gradients_actor :
    OptimizerActor → ActorVars → ActorVars → OptimizerActor * ActorVars;
  apply_gradients_critic :
    OptimizerCritic → CriticVars → CriticVars → OptimizerCritic * CriticVars;
  actor_forward_length θ x : length (actor_forward θ x) = length x;
  critic_forward_length φ x : length (critic_forward φ x) = length x
}.

(** [tfd.Categorical(probs=p).sample(1)]: one class per row of [p], drawn
    from a generator state that the draw advances. *)
Class Sampler := {
  Rng : Type;
  categorical_sample : Rng → list (list Q) → list Z * Rng;
  categorical_sample_length g p :
    length (categorical_sample g p).1 = length p
}.

Record StepResult (Obs : Type) := mkStep {
  step_observation : list Obs;
  step_reward : list Q;
  step_terminated : list bool;
  step_truncated : list bool
}.
Arguments mkStep {Obs}.
Arguments step_observation {Obs}.
Arguments step_reward {Obs}.
Arguments step_terminated {Obs}.
Arguments step_truncated {Obs}.

(** [gym.vector.VectorEnv]: [reset] and [step] over a fixed number of
    instances; every per-instance result has one entry per instance. *)
Class VectorEnv (Obs : Type) := {
  EnvState : Type;
  env_num_envs : nat;
  env_reset : EnvState → EnvState * list Obs;
  env_step : EnvState → list Z → EnvState * StepResult Obs;
  env_reset_length s : length (env_reset s).2 = env_num_envs;
  env_step_lengths s a :
    let r := (env_step s a).2 in
    length (step_observation r) = env_num_envs ∧
    length (step_reward r) = env_num_envs ∧
    length (step_terminated r) = env_num_envs ∧
    length (step_truncated r) = env_num_envs
}.

(** ** [tfd.Categorical(probs=...).prob] *)

(** Probability mass of class [k] under one row of class probabilities;
    a class outside the row is an error. *)
Definition class_prob (row : list Q) (k : Z) : option Q :=
  if decide (0 ≤ k)%Z then row !! Z.to_nat k else None.

(** [.prob(action)] over a batch: rows and classes are paired, with the
    usual stretching of an axis of size one. *)
Definition Categorical_prob (p : list (list Q)) (action : list Z)
    : option (list Q) :=
  Tf.bzip class_prob p action.

(** ** Array accesses of the driver *)

(** [a[t] = row] on the first axis; an index past the end is an error. *)
Definition assign_row {A} (t : nat) (row : A) (a : list A) : option (list A) :=
  if decide (t < length a)%nat then Some (<[t := row]> a) else None.

(** [a[:, e]]: column [e] of a two-dimensional array. *)
Definition column {A} (e : nat) (a : list (list A)) : option (list A) :=
  mapM (λ row, row !! e) a.

(** [a[ids]]: the entries at the listed indices, in that order. *)
Definition gather {A} (ids : list nat) (a : list A) : option (list A) :=
  mapM (λ i, a !! i) ids.

(** [np.arange(start, stop, 1)]. *)
Definition arange (start stop : nat) : list nat := seq start (stop - start).

(** A Python [for i in range: body] over a state, stopping at an error. *)
Fixpoint for_each {St} (body : nat → St → option St)
    (range : list nat) (s : St) : option St :=
  match range with
  | [] => Some s
  | i :: range' => s' ← body i s; for_each body range' s'
  end.

(** ** [memory.Memory] *)

Module Mem.

(** Modelled from the spec: the class [Memory] of module [memory], which
    [agent.py] imports and which is absent from the sources.  A rollout
    buffer of parallel per-field arrays indexed [time][environment], with
    the flattened fields [f_*] that [flatten] fills.  The field names are
    those [play_n_timesteps] reads and writes.  [advantages] and [returns]
    are assigned by the driver as one list per environment, so they are
    indexed [environment][time]. *)
Record Memory (Obs : Type) := mkMemory {
  num_envs : nat;
  obss : list (list Obs);
  actions : list (list Z);
  probs : list (list Q);
  rewards : list (list Q);
  terminateds : list (list bool);
  truncateds : list (list bool);
  values : list (list Q);
  advantages : list (list Q);
  returns : list (list Q);
  f_obss : list Obs;
  f_actions : list Z;
  f_advantages : list Q;
  f_probs : list Q;
  f_returns : list Q
}.
Arguments mkMemory {Obs}.
Arguments num_envs {Obs}.
Arguments obss {Obs}.
Arguments actions {Obs}.
Arguments probs {Obs}.
Arguments rewards {Obs}.
Arguments terminateds {Obs}.
Arguments truncateds {Obs}.
Arguments values {Obs}.
Arguments advantages {Obs}.
Arguments returns {Obs}.
Arguments f_obss {Obs}.
Arguments f_actions {Obs}.
Arguments f_advantages {Obs}.
Arguments f_probs {Obs}.
Arguments f_returns {Obs}.

Section Fields.
Context {Obs : Type}.
Implicit Type m : Memory Obs.

Definition set_obss v m :=
  mkMemory (num_envs m) v (actions m) (probs m) (rewards m)
    (terminateds m) (truncateds m) (values m) (advantages m) (returns m)
    (f_obss m) (f_actions m) (f_advantages m) (f_probs m) (f_returns m).
Definition set_actions v m :=
  mkMemory (num_envs m) (obss m) v (probs m) (rewards m)
    (terminateds m) (truncateds m) (values m) (advantages m) (returns m)
    (f_obss m) (f_actions m) (f_advantages m) (f_probs m) (f_returns m).
Definition set_probs v m :=
  mkMemory (num_envs m) (obss m) (actions m) v (rewards m)
    (terminateds m) (truncateds m) (values m) (advantages m) (returns m)
    (f_obss m) (f_actions m) (f_advantages m) (f_probs m) (f_returns m).
Definition set_rewards v m :=
  mkMemory (num_envs m) (obss m) (actions m) (probs m) v
    (terminateds m) (truncateds m) (values m) (advantages m) (returns m)
    (f_obss m) (f_actions m) (f_advantages m) (f_probs m) (f_returns m).
Definition set_terminateds v m :=
  mkMemory (num_envs m) (obss m) (actions m) (probs m) (rewards m)
    v (truncateds m) (values m) (advantages m) (returns m)
    (f_obss m) (f_actions m) (f_advantages m) (f_probs m) (f_returns m).
Definition set_truncateds v m :=
  mkMemory (num_envs m) (obss m) (actions m) (probs m) (rewards m)
    (terminateds m) v (values m) (advantages m) (returns m)
    (f_obss m) (f_actions m) (f_advantages m) (f_probs m) (f_returns m).
Definition set_advantages v m :=
  mkMemory (num_envs m) (obss m) (actions m) (probs m) (rewards m)
    (terminateds m) (truncateds m) (values m) v (returns m)
    (f_obss m) (f_actions m) (f_advantages m) (f_probs m) (f_returns m).
Definition set_returns v m :=
  mkMemory (num_envs m) (obss m) (actions m) (probs m) (rewards m)
    (terminateds m) (truncateds m) (values m) (advantages m) v
    (f_obss m) (f_actions m) (f_advantages m) (f_probs m) (f_returns m).

(** Modelled from the spec: reading an [environment][time] array in
    time-major order, as [flatten] must to keep the fields aligned. *)
Definition time_major {A} (timesteps : nat) (a : list (list A))
    : option (list A) :=
  cols ← mapM (λ t, column t a) (seq 0 timesteps); Some (concat cols).

(** Modelled from the spec: [flatten] collapses the [time][environment]
    layout into one sequence ordered by [t * num_envs + e] and keeps the
    fields aligned sample by sample; it fills the [f_*] fields and
    leaves the others as they are. *)
Definition flatten m : option (Memory Obs) :=
  adv ← time_major (length (obss m)) (advantages m);
  ret ← time_major (length (obss m)) (returns m);
  Some (mkMemory (num_envs m) (obss m) (actions m) (probs m) (rewards m)
          (terminateds m) (truncateds m) (values m) (advantages m)
          (returns m)
          (concat (obss m)) (concat (actions m)) adv
          (concat (probs m)) ret).
End Fields.
End Mem.

(** ** [utils.calc_adv_list] and [utils.calc_returns] *)

Module Utils.

(** Modelled from the spec: [continue_t] is 0 when the episode terminated or
    was truncated at [t], and 1 otherwise. *)
Definition continue (terminated truncated : bool) : Q :=
  if terminated || truncated then 0 else 1.

Section Walks.
Variables (rewards values : list Q) (gamma lmbda : Q).
Variables (terminateds truncateds : list bool) (next_val : Q).
Variable last_t : nat.

(** Modelled from the spec: the reverse iteration of [calc_adv_list] over
    the listed timesteps, carrying the advantage of the following timestep
    as its accumulator; the results are consed, so they end in time
    order. *)
Fixpoint adv_walk (ts : list nat) (adv_next : Q) (acc : list Q)
    : option (list Q) :=
  match ts with
  | [] => Some acc
  | t :: ts' =>
      r ← rewards !! t;
      v ← values !! t;
      term ← terminateds !! t;
      trunc ← truncateds !! t;
      nv ← (if decide (t = last_t) then Some next_val else values !! S t);
      let c := continue term trunc in
      let delta := r + gamma * nv * c - v in
      let adv := delta + gamma * lmbda * c * adv_next in
      adv_walk ts' adv (adv :: acc)
  end.

(** Modelled from the spec: the reverse iteration of [calc_returns],
    carrying the return of the following timestep. *)
Fixpoint ret_walk (ts : list nat) (ret_next : Q) (acc : list Q)
    : option (list Q) :=
  match ts with
  | [] => Some acc
  | t :: ts' =>
      r ← rewards !! t;
      term ← terminateds !! t;
      trunc ← truncateds !! t;
      let ret := r + gamma * continue term trunc * ret_next in
      ret_walk ts' ret (ret :: acc)
  end.
End Walks.

(** Modelled from the spec: [calc_adv_list] of module [utils], absent from
    the sources.  GAE over one environment's trajectory, walking the
    timesteps from [last_t] down to [first_t] with an accumulator:
    [delta_t = reward_t + gamma * next_value * continue_t - value_t] and
    [advantage_t = delta_t + gamma * lambda * continue_t * advantage_{t+1}],
    with [next_value] the bootstrap value at the last timestep and
    [value_{t+1}] before it. *)
Definition calc_adv_list (last_t first_t : nat) (rewards values : list Q)
    (gamma lmbda : Q) (terminateds truncateds : list bool) (next_val : Q)
    : option (list Q) :=
  adv_walk rewards values gamma lmbda terminateds truncateds next_val last_t
    (reverse (seq first_t (S last_t - first_t))) 0 [].

(** Modelled from the spec: [calc_returns] of module [utils], absent from
    the sources.  [return_t = reward_t + gamma * continue_t * return_{t+1}]
    walking backward, bootstrapped from 0 at the end of the trajectory. *)
Definition calc_returns (last_t first_t : nat) (rewards : list Q)
    (gamma : Q) (terminateds truncateds : list bool) : option (list Q) :=
  ret_walk rewards gamma terminateds truncateds
    (reverse (seq first_t (S last_t - first_t))) 0 [].

End Utils.

(** ** [np.random] as laws of outcomes *)

(** A finite law: outcomes with their weights. *)
Definition Dist (A : Type) := list (A * Q).

Definition dirac {A} (a : A) : Dist A := [(a, 1)].

(** [np.random.randint(high)]: the discrete uniform law on [0, high). *)
Definition np_random_randint (high : nat) : Dist Z :=
  map (λ k, (Z.of_nat k, 1 / inject_Z (Z.of_nat high))) (seq 0 high).

(** Probability that a law gives to one integer outcome. *)
Definition pmf (d : Dist Z) (k : Z) : Q :=
  sumQ (map snd (filter (λ p, p.1 = k) d)).

(** [np.argmax] of a flat array: the first index of a largest entry; an
    empty array is an error. *)
Fixpoint argmax_from (best : Q) (best_i i : nat) (l : list Q) : nat :=
  match l with
  | [] => best_i
  | x :: l' =>
      if Qlt_le_dec best x then argmax_from x i (S i) l'
      else argmax_from best best_i (S i) l'
  end.

Definition np_argmax (l : list Q) : option Z :=
  match l with
  | [] => None
  | x :: l' => Some (Z.of_nat (argmax_from x 0 1 l'))
  end.

(** [np.max] of a flat array: its largest entry; an empty array is an
    error. *)
Definition np_max (l : list Q) : option Q :=
  match l with
  | [] => None
  | x :: l' => Some (foldl Qmax x l')
  end.

(** [tf.one_hot(a, depth)] for one index: 1 at position [a], 0 elsewhere;
    an index outside [0, depth) gives the zero row. *)
Definition one_hot (depth : nat) (a : Z) : list Q :=
  map (λ j, if decide (a = Z.of_nat j) then 1 else 0) (seq 0 depth).

(** Python's [l[k]] with an integer: a negative [k] counts from the end,
    an index outside [-len, len) is an error. *)
Definition py_index {A} (l : list A) (k : Z) : option A :=
  if decide (0 ≤ k)%Z then l !! Z.to_nat k
  else if decide (- Z.of_nat (length l) ≤ k)%Z
       then l !! Z.to_nat (Z.of_nat (length l) + k)
       else None.

(** ** [DQN_Agent] *)

Module DQN.

(** [dqn_model.predict(state[np.newaxis], verbose=0)]: the Q-values of
    one state, flattened. *)
Class QNetwork (State : Type) := {
  ModelVars : Type;
  predict : ModelVars → State → list Q
}.

Record Agent {State} {QN : QNetwork State} := mkAgent {
  _discount : Q;
  n_outputs : nat;
  dqn_model : ModelVars
}.
Arguments Agent State {QN}.

Section Policy.
Context {State : Type} {QN : QNetwork State}.

(** [epsilon_greedy_policy], given the value [u] that [np.random.rand()]
    returned: the law of the action. *)
Definition epsilon_greedy_policy (self : Agent State) (state : State)
    (epsilon : Q) (u : Q) : option (Dist Z) :=
  if Qlt_le_dec u epsilon then Some (np_random_randint 3)
  else
    let q_values := predict (dqn_model self) state in
    a ← np_argmax q_values; Some (dirac a).
End Policy.
(** *** [_sample_experiences] and [train] *)

(** One entry of the replay buffer: the tuple
    [(state, action, reward, next_state, terminated)]. *)
Record Experience {State : Type} := mkExperience {
  exp_state : State;
  exp_action : Z;
  exp_reward : Q;
  exp_next_state : State;
  exp_terminated : bool
}.
Arguments Experience State : clear implicits.
Arguments mkExperience {State}.

(** The loss function and the optimizer handed to the constructor, and the
    gradient tape. *)
Class Fitting (State : Type) {QN : QNetwork State} := {
  OptimizerState : Type;
  loss_fn : list Q → Tf.Tensor → Tf.Tensor;
  tape_gradient : (ModelVars → option Q) → ModelVars → ModelVars;
  apply_gradients : OptimizerState → ModelVars → ModelVars
                    → OptimizerState * ModelVars
}.

Section Training.
Context {State : Type} {QN : QNetwork State} {F : Fitting State}.

(** [_sample_experiences], given the indices that
    [np.random.randint(len(replay_buffer), size=batch_size)] drew: the
    experiences at those indices, field by field. *)
Definition _sample_experiences (replay_buffer : list (Experience State))
    (indices : list nat)
    : option (list State * list Z * list Q * list State * list bool) :=
  batch ← mapM (λ index, replay_buffer !! index) indices;
  Some (map exp_state batch, map exp_action batch, map exp_reward batch,
        map exp_next_state batch, map exp_terminated batch).

(** [dqn_model.predict] on a batch; Keras refuses an empty batch. *)
Definition predict_batch (vars : ModelVars) (states : list State)
    : option (list (list Q)) :=
  match states with
  | [] => None
  | _ => Some (map (predict vars) states)
  end.

(** [rewards + (1 - terminateds) * discount * max_next_q_values]. *)
Definition target_q_values (discount : Q) (rewards : list Q)
    (terminateds : list bool) (max_next_q_values : list Q) : list Q :=
  zip_with Qplus rewards
    (zip_with Qmult
       (map (λ b : bool, (1 - (if b then 1 else 0)) * discount) terminateds)
       max_next_q_values).

(** The targets of [train]: the largest Q-value of the current network on
    every next state, discounted and dropped for terminated transitions. *)
Definition targets_of (self : Agent State) (rewards : list Q)
    (next_states : list State) (terminateds : list bool) : option (list Q) :=
  next_q_values ← predict_batch (dqn_model self) next_states;
  max_next_q_values ← mapM np_max next_q_values;
  Some (target_q_values (_discount self) rewards terminateds
          max_next_q_values).

(** [reduce_sum(all_q_values * mask, axis=1, keepdims=True)] with
    [mask = one_hot(actions, n_outputs)]: one selected value per sample, in
    a column. *)
Definition masked_q_values (n_outputs : nat) (all_q_values : list (list Q))
    (actions : list Z) : option (list Q) :=
  let mask := map (one_hot n_outputs) actions in
  prod ← Tf.multiply (Tf.Mat all_q_values) (Tf.Mat mask);
  Some (map sumQ (Tf.rows prod)).

Definition loss_of (self : Agent State) (states : list State)
    (actions : list Z) (target : list Q) (vars : ModelVars) : option Q :=
  let all_q_values := map (predict vars) states in
  q_values ← masked_q_values (n_outputs self) all_q_values actions;
  Some (Tf.reduce_mean (loss_fn target (Tf.column q_values))).

(** [train]: targets from the current network on the next states, one
    gradient step on the loss of the selected Q-values; returns the loss. *)
Definition train (self : Agent State) (optimizer : OptimizerState)
    (replay_buffer : list (Experience State)) (indices : list nat)
    : option (Q * Agent State * OptimizerState) :=
  '(states, actions, rewards, next_states, terminateds) ←
    _sample_experiences replay_buffer indices;
  target ← targets_of self rewards next_states terminateds;
  let L := loss_of self states actions target in
  loss ← L (dqn_model self);
  let grads := tape_gradient L (dqn_model self) in
  let '(opt', vars') := apply_gradients optimizer grads (dqn_model self) in
  Some (loss,
        {| _discount := _discount self; n_outputs := n_outputs self;
           dqn_model := vars' |},
        opt').

End Training.
End DQN.

(** ** [PPO_Agent] *)

Module PPO.

(** The fields of the agent that its methods read or write; the networks
    are represented by their trainable variables. *)

Record Agent {Obs} {N : Networks Obs} := mkAgent {
  _gamma : Q;
  _lmbda : Q;
  epsilon : Q;
  lr : Q;
  n_outputs : nat;
  actor : ActorVars;
  critic : CriticVars;
  optimizer_actor : OptimizerActor;
  optimizer_critic : OptimizerCritic
}.
Arguments Agent Obs {N}.

Section Methods.
Context {Obs : Type} {N : Networks Obs} {Smp : Sampler}.

(** [get_value]: the critic's output, of shape [n, 1]. *)
Definition get_value (self : Agent Obs) (x : list Obs) : Tf.Tensor :=
  Tf.column (critic_forward (critic self) x).

(** [get_action]: with [action = None] one class per row is sampled,
    otherwise the given classes are kept; in both cases the probability
    of the classes under the current actor is returned with them.  The
    sampler's generator is ambient state of the program; here it is an
    argument [g], returned as the call leaves it. *)
Definition get_action_with (θ : ActorVars) (x : list Obs)
    (action : option (list Z)) (g : Rng)
    : option ((list Z * list Q) * Rng) :=
  let logits := actor_forward θ x in
  match action with
  | None =>
      let '(a, g') := categorical_sample g logits in
      prob ← Categorical_prob logits a;
      Some ((a, prob), g')
  | Some a =>
      prob ← Categorical_prob logits a;
      Some ((a, prob), g)
  end.

Definition get_action (self : Agent Obs) :=
  get_action_with (actor self).

(** [get_action_and_value]: the action and its probability as in
    [get_action], together with the critic's output. *)
Definition get_action_and_value (self : Agent Obs) (x : list Obs)
    (action : option (list Z)) (g : Rng)
    : option ((list Z * list Q * Tf.Tensor) * Rng) :=
  let logits := actor_forward (actor self) x in
  let '(a, g') := match action with
                  | None => categorical_sample g logits
                  | Some a => (a, g)
                  end in
  prob ← Categorical_prob logits a;
  Some ((a, prob, Tf.column (critic_forward (critic self) x)), g').

(** The two losses of [train_step_ppo], as functions of the variables
    the tape differentiates them for. *)
Definition loss_clip_of (eps : Q) (x : list Obs) (actions : list Z)
    (adv probs : Tf.Tensor) (g : Rng) (θ : ActorVars) : option Q :=
  '((_, new_probs), _) ← get_action_with θ x (Some actions) g;
  ratio ← Tf.divide (Tf.Vec new_probs) probs;
  clip ← Tf.multiply (Tf.clip_by_value ratio (1 - eps) (1 + eps)) adv;
  ra ← Tf.multiply ratio adv;
  loss_clip ← Tf.minimum ra clip;
  Some (- Tf.reduce_mean loss_clip).

Definition loss_value_of (x : list Obs) (returns : Tf.Tensor)
    (φ : CriticVars) : option Q :=
  let new_value := Tf.column (critic_forward φ x) in
  d ← Tf.subtract returns new_value;
  Some (Tf.reduce_mean (Tf.square d)).

(** [train_step_ppo]: both losses are evaluated, each network's
    gradient is taken from its own loss and applied by its own
    optimizer; the losses are returned. *)
Definition train_step_ppo (self : Agent Obs) (obs : list Obs)
    (actions : list Z) (adv probs returns : Tf.Tensor) (g : Rng)
    : option ((Q * Q) * Agent Obs) :=
  let Lc := loss_clip_of (epsilon self) obs actions adv probs g in
  let Lv := loss_value_of obs returns in
  loss_clip ← Lc (actor self);
  loss_value ← Lv (critic self);
  let grads_actor := gradient_actor Lc (actor self) in
  let grads_critic := gradient_critic Lv (critic self) in
  let '(oa, θ') :=
    apply_gradients_actor (optimizer_actor self) grads_actor (actor self) in
  let '(oc, φ') :=
    apply_gradients_critic (optimizer_critic self) grads_critic (critic self) in
  Some ((loss_clip, loss_value),
        {| _gamma := _gamma self; _lmbda := _lmbda self;
           epsilon := epsilon self; lr := lr self;
           n_outputs := n_outputs self;
           actor := θ'; critic := φ';
           optimizer_actor := oa; optimizer_critic := oc |}).

End Methods.

(** *** [play_n_timesteps] *)

(** What the driver's loops carry besides the agent: the environment, the
    sampler's generator, the buffer [m] and the local [observation]. *)
Record World {Obs} {E : VectorEnv Obs} {Smp : Sampler} := mkWorld {
  envs : EnvState;
  rng : Rng;
  m : Mem.Memory Obs;
  observation : list Obs
}.
Arguments World Obs {E Smp}.

(** The accumulators of the optimization loops. *)
Record Fit {Obs} {N : Networks Obs} := mkFit {
  fit_agent : Agent Obs;
  mb_actor_loss_l : list Q;
  mb_critic_loss_l : list Q
}.
Arguments Fit Obs {N}.

Section Driver.
Context {Obs : Type} {N : Networks Obs} {Smp : Sampler} {E : VectorEnv Obs}.

(** Body of [for t in range(single_batch_ts)].  The environment receives
    the drawn classes as a flat list ([squeeze().tolist()]). *)
Definition timestep (self : Agent Obs) (t : nat) (w : World Obs)
    : option (World Obs) :=
  obss1 ← assign_row t (observation w) (Mem.obss (m w));
  '((actions, probs), g') ← get_action self (observation w) None (rng w);
  let '(envs', r) := env_step (envs w) actions in
  actions1 ← assign_row t actions (Mem.actions (m w));
  probs1 ← assign_row t probs (Mem.probs (m w));
  rewards1 ← assign_row t (step_reward r) (Mem.rewards (m w));
  terminateds1 ← assign_row t (step_terminated r) (Mem.terminateds (m w));
  truncateds1 ← assign_row t (step_truncated r) (Mem.truncateds (m w));
  Some {| envs := envs'; rng := g';
          m := Mem.set_truncateds truncateds1
                 (Mem.set_terminateds terminateds1
                    (Mem.set_rewards rewards1
                       (Mem.set_probs probs1
                          (Mem.set_actions actions1
                             (Mem.set_obss obss1 (m w))))));
          observation := step_observation r |}.

(** The timestep loop and the statement [m.obss[t] = observation] that
    follows it, where [t] still holds the last value the loop gave it
    (unbound when the loop did not run). *)
Definition rollout (self : Agent Obs) (single_batch_ts : nat)
    (w : World Obs) : option (World Obs) :=
  w1 ← for_each (timestep self) (seq 0 single_batch_ts) w;
  t ← last (seq 0 single_batch_ts);
  obss1 ← assign_row t (observation w1) (Mem.obss (m w1));
  Some {| envs := envs w1; rng := rng w1;
          m := Mem.set_obss obss1 (m w1);
          observation := observation w1 |}.

(** [next_val], then [m.advantages] and [m.returns], one list per
    environment. *)
Definition estimate (self : Agent Obs) (single_batch_ts : nat)
    (w : World Obs) : option (World Obs) :=
  let next_val := Tf.squeeze (get_value self (observation w)) in
  let mem := m w in
  advantages ←
    mapM (λ env_id,
            rew ← column env_id (Mem.rewards mem);
            val ← column env_id (Mem.values mem);
            term ← column env_id (Mem.terminateds mem);
            trunc ← column env_id (Mem.truncateds mem);
            nv ← Tf.index next_val env_id;
            Utils.calc_adv_list (single_batch_ts - 1) 0 rew val
              (_gamma self) (_lmbda self) term trunc nv)
         (seq 0 (Mem.num_envs mem));
  let mem1 := Mem.set_advantages advantages mem in
  returns ←
    mapM (λ env_id,
            rew ← column env_id (Mem.rewards mem1);
            term ← column env_id (Mem.terminateds mem1);
            trunc ← column env_id (Mem.truncateds mem1);
            Utils.calc_returns (single_batch_ts - 1) 0 rew
              (_gamma self) term trunc)
         (seq 0 (Mem.num_envs mem1));
  Some {| envs := envs w; rng := rng w;
          m := Mem.set_returns returns mem1;
          observation := observation w |}.

(** Body of [for mb in range(minibatch_size)]: the entries of the
    flattened buffer at [ids] go through one [train_step_ppo]. *)
Definition train_on (mem : Mem.Memory Obs) (g : Rng) (ids : list nat)
    (st : Fit Obs) : option (Fit Obs) :=
  mb_obs ← gather ids (Mem.f_obss mem);
  mb_actions ← gather ids (Mem.f_actions mem);
  mb_adv ← gather ids (Mem.f_advantages mem);
  mb_probs ← gather ids (Mem.f_probs mem);
  mb_returns ← gather ids (Mem.f_returns mem);
  '((loss_actor, loss_value), self') ←
    train_step_ppo (fit_agent st) mb_obs mb_actions
      (Tf.Vec mb_adv) (Tf.Vec mb_probs) (Tf.Vec mb_returns) g;
  Some {| fit_agent := self';
          mb_actor_loss_l := mb_actor_loss_l st ++ [loss_actor];
          mb_critic_loss_l := mb_critic_loss_l st ++ [loss_value] |}.

(** The index array [ids] of one epoch. *)
Definition epoch_ids (minibatch_size epoch : nat) : list nat :=
  let start_ind := (epoch * minibatch_size)%nat in
  let end_ind := (start_ind + minibatch_size)%nat in
  arange start_ind end_ind.

(** [for epoch in range(epochs): ... for mb in range(minibatch_size)]. *)
Definition optimize (mem : Mem.Memory Obs) (g : Rng)
    (minibatch_size epochs : nat) (st : Fit Obs) : option (Fit Obs) :=
  for_each
    (λ epoch st,
       let ids := epoch_ids minibatch_size epoch in
       for_each (λ mb st, train_on mem g ids st) (seq 0 minibatch_size) st)
    (seq 0 epochs) st.

(** One iteration of [for update in range(updates)]. *)
Definition update (single_batch_ts minibatch_size epochs : nat)
    (self : Agent Obs) (w : World Obs)
    : option (Agent Obs * World Obs * (Q * Q)) :=
  w1 ← rollout self single_batch_ts w;
  w2 ← estimate self single_batch_ts w1;
  mem ← Mem.flatten (m w2);
  fit ← optimize mem (rng w2) minibatch_size epochs
           {| fit_agent := self;
              mb_actor_loss_l := []; mb_critic_loss_l := [] |};
  Some (fit_agent fit,
        {| envs := envs w2; rng := rng w2; m := mem;
           observation := observation w2 |},
        (meanQ (mb_actor_loss_l fit), meanQ (mb_critic_loss_l fit))).

Fixpoint updates_loop (updates : nat)
    (single_batch_ts minibatch_size epochs : nat)
    (self : Agent Obs) (w : World Obs) (actor_l critic_l : list Q)
    : option (Agent Obs * World Obs * (list Q * list Q)) :=
  match updates with
  | O => Some (self, w, (actor_l, critic_l))
  | S k =>
      '(self', w', (la, lc)) ←
        update single_batch_ts minibatch_size epochs self w;
      updates_loop k single_batch_ts minibatch_size epochs self' w'
        (actor_l ++ [la]) (critic_l ++ [lc])
  end.

(** [play_n_timesteps]; the integer division by [single_batch_ts] is an
    error at zero. *)
Definition play_n_timesteps (self : Agent Obs) (envs0 : EnvState)
    (g : Rng) (mem : Mem.Memory Obs)
    (t_timesteps single_batch_ts minibatch_size epochs : nat)
    : option (Agent Obs * World Obs * (list Q * list Q)) :=
  let batch := (env_num_envs * single_batch_ts)%nat in
  if decide (single_batch_ts = 0)%nat then None else
  let updates := (t_timesteps / single_batch_ts)%nat in
  let '(envs1, observation0) := env_reset envs0 in
  updates_loop updates single_batch_ts minibatch_size epochs self
    {| envs := envs1; rng := g; m := mem; observation := observation0 |}
    [] [].

End Driver.
(** [get_logit]: for every row [a] of [actions], the entries of
    [logits[a]] at the indices listed in that row. *)
Definition get_logit (logits : list (list Q)) (actions : list (list Z))
    : option (list (list Q)) :=
  mapM (λ a, row ← logits !! a;
             acts ← actions !! a;
             mapM (py_index row) acts)
       (seq 0 (length actions)).

End PPO.

(** ** The losses as the specification words them *)

(** [clip(r, lo, hi)]. *)
Definition clip (r lo hi : Q) : Q := Qmin (Qmax r lo) hi.

(** [L_clip = -mean(min(r * advantage, clip(r, 1 - eps, 1 + eps) * advantage))]
    with [r = new_probability / old_probability], sample by sample. *)
Definition L_clip (eps : Q) (new_probs old_probs adv : list Q) : Q :=
  - meanQ (zip_with (λ r a, Qmin (r * a) (clip r (1 - eps) (1 + eps) * a))
             (zip_with Qdiv new_probs old_probs) adv).

(** Mean squared error between predicted values and returns, sample by
    sample. *)
Definition mse (predicted returns : list Q) : Q :=
  meanQ (zip_with (λ v r, (r - v) * (r - v)) predicted returns).

(** ** Vocabulary of the properties *)

(** An array of [T] rows of [E] entries each. *)
Definition shaped {A} (T E : nat) (a : list (list A)) : Prop :=
  length a = T ∧ Forall (λ row, length row = E) a.

(** The entry [a[t][e]] of a two-dimensional array. *)
Definition cell {A} (a : list (list A)) (t e : nat) : option A :=
  row ← a !! t; row !! e.

(** A list in which every entry is obtained from its successor by [step],
    the entry past the end counting as 0; [n] is the timestep of the head. *)
Definition chained (step : nat → Q → Q) (n : nat) (acc : list Q) : Prop :=
  ∀ j, (j < length acc)%nat →
       acc !! j = Some (step (n + j)%nat (default 0 (acc !! S j))).

(** *** The recurrences of the estimator *)

Section Recurrence_words.
Variables (rewards values : list Q) (gamma lmbda : Q).
Variables (terminateds truncateds : list bool) (next_val : Q).
Variable last_t : nat.

(** The recurrences as the specification writes them, on a trajectory read
    with defaults outside its range. *)
Definition continue_at (t : nat) : Q :=
  Utils.continue (default false (terminateds !! t))
    (default false (truncateds !! t)).

Definition next_value_at (t : nat) : Q :=
  if decide (t = last_t) then next_val else default 0 (values !! S t).

Definition delta_at (t : nat) : Q :=
  default 0 (rewards !! t) + gamma * next_value_at t * continue_at t
  - default 0 (values !! t).

Definition advantage_step (t : nat) (adv_next : Q) : Q :=
  delta_at t + gamma * lmbda * continue_at t * adv_next.

Definition return_step (t : nat) (ret_next : Q) : Q :=
  default 0 (rewards !! t) + gamma * continue_at t * ret_next.

End Recurrence_words.

(** *** Calls and inputs of the driver's loops *)

(** The index arrays handed to [train_step_ppo], in call order: for every
    epoch, [minibatch_size] times the index array of that epoch. *)
Definition train_calls (minibatch_size epochs : nat) : list (list nat) :=
  concat (map (λ epoch,
                 replicate minibatch_size (PPO.epoch_ids minibatch_size epoch))
            (seq 0 epochs)).

(** How many calls of [train_step_ppo] receive sample [i] of the
    flattened buffer. *)
Definition consumed (minibatch_size epochs i : nat) : nat :=
  length (filter (λ j, j = i) (concat (train_calls minibatch_size epochs))).

Section Loop_traces.
Context {Obs : Type} {N : Networks Obs} {Smp : Sampler} {E : VectorEnv Obs}.

(** One [train_on] per listed index array, in order. *)
Fixpoint train_all (mem : Mem.Memory Obs) (g : Rng)
    (calls : list (list nat)) (st : PPO.Fit Obs) : option (PPO.Fit Obs) :=
  match calls with
  | [] => Some st
  | ids :: calls' => st' ← PPO.train_on mem g ids st; train_all mem g calls' st'
  end.

(** The observation held on entry of each timestep of the loop: the one
    [get_action] is called on at that timestep. *)
Fixpoint observations_seen (self : PPO.Agent Obs) (range : list nat)
    (w : PPO.World Obs) : option (list (list Obs)) :=
  match range with
  | [] => Some []
  | t :: range' =>
      w' ← PPO.timestep self t w;
      rest ← observations_seen self range' w';
      Some (PPO.observation w :: rest)
  end.

(** The smallest of the lengths of the five flattened fields a minibatch
    is gathered from. *)
Definition flat_length (mem : Mem.Memory Obs) : nat :=
  Nat.min (length (Mem.f_obss mem))
    (Nat.min (length (Mem.f_actions mem))
       (Nat.min (length (Mem.f_advantages mem))
          (Nat.min (length (Mem.f_probs mem)) (length (Mem.f_returns mem))))).


(** The fields of the agent that are set once by the constructor. *)
Definition hyperparameters (self : PPO.Agent Obs) : Q * Q * Q * Q * nat :=
  (PPO._gamma self, PPO._lmbda self, PPO.epsilon self, PPO.lr self,
   PPO.n_outputs self).

End Loop_traces.

(** ** A small concrete world

    Two environment instances that count their steps, a two-class actor
    with one variable, a linear critic, a sampler that alternates classes.
    Used to run the definitions on concrete inputs. *)

Module Toy.

Definition toy_actor (θ : Q) (x : list Z) : list (list Q) :=
  map (λ _, [θ; 1 - θ]) x.

Definition toy_critic (φ : Q) (x : list Z) : list Q :=
  map (λ o, φ * inject_Z o) x.

Definition toy_gradient (L : Q → option Q) (v : Q) : Q :=
  default 0 (L (v + 1)) - default 0 (L v).

Definition toy_apply (o : nat) (grad v : Q) : nat * Q :=
  (S o, Qred (v - (1 # 10) * grad)).

#[export] Program Instance networks : Networks Z := {|
  ActorVars := Q; CriticVars := Q;
  OptimizerActor := nat; OptimizerCritic := nat;
  actor_forward := toy_actor;
  critic_forward := toy_critic;
  gradient_actor := toy_gradient;
  gradient_critic := toy_gradient;
  apply_gradients_actor := toy_apply;
  apply_gradients_critic := toy_apply
|}.
Next Obligation. intros. apply length_map. Qed.
Next Obligation. intros. apply length_map. Qed.

Definition toy_sample (g : nat) (p : list (list Q)) : list Z * nat :=
  (map (λ _, Z.of_nat (g mod 2)) p, S g).

#[export] Program Instance sampler : Sampler := {|
  Rng := nat;
  categorical_sample := toy_sample
|}.
Next Obligation. intros. apply length_map. Qed.

(** A generator state of the alternating sampler. *)
Definition seed (n : nat) : @Rng sampler := n.

Definition toy_step (s : Z) (a : list Z) : Z * StepResult Z :=
  ((s + 1)%Z,
   mkStep [(s + 1)%Z; (s + 101)%Z] [1; 1] [false; false] [false; false]).

#[export] Program Instance vector_env : VectorEnv Z := {|
  EnvState := Z;
  env_num_envs := 2;
  env_reset := λ _, (0%Z, [0%Z; 100%Z]);
  env_step := toy_step
|}.
Next Obligation. done. Qed.
Next Obligation. done. Qed.

Definition agent (eps : Q) : PPO.Agent Z :=
  PPO.mkAgent Z networks (9 # 10) (95 # 100) eps (1 # 1000) 2
    (1 # 2) 1 O O.

(** A buffer for [timesteps] steps of two environments, filled with
    zeros, whose [values] field holds [v] everywhere. *)
Definition memory (timesteps : nat) (v : Q) : Mem.Memory Z :=
  let z {A} (a : A) := replicate timesteps [a; a] in
  Mem.mkMemory 2 (z 0%Z) (z 0%Z) (z 0) (z 0) (z false) (z false) (z v)
    [] [] [] [] [] [] [].

(** A filled buffer of three timesteps: environment 0 earns 1, 2, 3
    without interruption, environment 1 is truncated at the second step. *)
Definition sample_memory : Mem.Memory Z :=
  Mem.mkMemory 2
    [[0; 100]; [1; 101]; [2; 102]]%Z
    [[0; 0]; [1; 1]; [0; 0]]%Z
    [[1 # 2; 1 # 2]; [1 # 2; 1 # 2]; [1 # 2; 1 # 2]]
    [[1; 1]; [2; 1]; [3; 1]]
    [[false; false]; [false; false]; [false; false]]
    [[false; false]; [false; true]; [false; false]]
    [[1 # 2; 0]; [1 # 4; 0]; [1 # 8; 0]]
    [] [] [] [] [] [] [].

Definition sample_world : PPO.World Z :=
  PPO.mkWorld Z vector_env sampler 3%Z (seed 3) sample_memory [3; 103]%Z.

(** A Q-network over integer states with two outputs. *)
#[export] Instance q_network : DQN.QNetwork Z := {|
  DQN.ModelVars := Q;
  DQN.predict := λ w s, [w * inject_Z s; 1]
|}.

Definition dqn_agent : DQN.Agent Z := DQN.mkAgent Z q_network (99 # 100) 2 1.

Definition world (timesteps : nat) (v : Q) : PPO.World Z :=
  PPO.mkWorld Z vector_env sampler 0%Z (seed 0) (memory timesteps v)
  [0%Z; 100%Z].

(** A squared-error loss and the toy optimizer for the Q-network. *)
#[export] Instance fitting : DQN.Fitting Z := {|
  DQN.OptimizerState := nat;
  DQN.loss_fn := λ target q_values,
    Tf.Vec (zip_with (λ t q, (t - q) * (t - q)) target (Tf.entries q_values));
  DQN.tape_gradient := toy_gradient;
  DQN.apply_gradients := toy_apply
|}.

(** A single environment instance that counts its steps. *)
Definition toy_step_1 (s : Z) (a : list Z) : Z * StepResult Z :=
  ((s + 1)%Z, mkStep [(s + 1)%Z] [1] [false] [false]).

#[export] Program Instance vector_env_1 : VectorEnv Z := {|
  EnvState := Z;
  env_num_envs := 1;
  env_reset := λ _, (0%Z, [0%Z]);
  env_step := toy_step_1
|}.
Next Obligation. done. Qed.
Next Obligation. done. Qed.

(** A buffer for [timesteps] steps of one environment, filled with zeros. *)
Definition memory_1 (timesteps : nat) : Mem.Memory Z :=
  let z {A} (a : A) := replicate timesteps [a] in
  Mem.mkMemory 1 (z 0%Z) (z 0%Z) (z 0) (z 0) (z false) (z false) (z 0)
    [] [] [] [] [] [] [].

End Toy.


(** * Properties *)

(** ** Broadcasting on aligned shapes *)

Ltac solve_length :=
  repeat first [rewrite length_map | rewrite length_zip_with]; lia.

Lemma mapM_total {A B} (f : A → B) (l : list A) :
  mapM (λ x, Some (f x)) l = Some (map f l).
Proof. induction l as [|x l IH]; [done|]. cbn. by rewrite IH. Qed.

Lemma zip_with_as_map {A B C} (f : A → B → C) xs ys :
  map (λ p, f p.1 p.2) (zip xs ys) = zip_with f xs ys.
Proof.
  revert ys; induction xs as [|x xs IH]; intros [|y ys]; cbn; [done..|].
  by rewrite IH.
Qed.

Lemma bzip_same_length {A B C} (f : A → B → option C) xs ys :
  length xs = length ys →
  Tf.bzip f xs ys = mapM (λ p, f p.1 p.2) (zip xs ys).
Proof.
  intros Hlen. unfold Tf.bzip.
  destruct xs as [|x [|x' xs]], ys as [|y [|y' ys]]; try discriminate; try done.
  by rewrite decide_True.
Qed.

Lemma bzip_total {A B C} (f : A → B → C) xs ys :
  length xs = length ys →
  Tf.bzip (λ x y, Some (f x y)) xs ys = Some (zip_with f xs ys).
Proof.
  intros Hlen. rewrite bzip_same_length by done.
  rewrite (mapM_total (λ p, f p.1 p.2)). by rewrite zip_with_as_map.
Qed.

Lemma bzip_length {A B C} (f : A → B → option C) xs ys l :
  length xs = length ys → Tf.bzip f xs ys = Some l → length l = length xs.
Proof.
  intros Hlen. rewrite bzip_same_length by done. intros H.
  apply length_mapM in H. rewrite <- H, length_zip. lia.
Qed.

(** Two rank-one tensors of one length are combined entry by entry. *)
Lemma broadcast_vec f xs ys :
  length xs = length ys →
  Tf.broadcast f (Tf.Vec xs) (Tf.Vec ys) = Some (Tf.Vec (zip_with f xs ys)).
Proof.
  intros Hlen. unfold Tf.broadcast. cbn [Tf.rows Tf.rank Nat.max].
  unfold Tf.bzip at 1. cbn [mapM]. by rewrite bzip_total.
Qed.

(** A rank-one tensor against a column: every entry of the first meets
    every row of the second, whatever the two lengths. *)
Lemma bzip_against_singleton {A B C} (f : A → B → C) xs y :
  Tf.bzip (λ x y, Some (f x y)) xs [y] = Some (map (λ x, f x y) xs).
Proof.
  destruct xs as [|x [|x' xs]]; [done..|].
  unfold Tf.bzip. apply (mapM_total (λ x, f x y)).
Qed.

Lemma broadcast_vec_column f rs vs :
  Tf.broadcast f (Tf.Vec rs) (Tf.column vs)
  = Some (Tf.Mat (map (λ v, map (λ r, f r v) rs) vs)).
Proof.
  unfold Tf.broadcast, Tf.column. cbn [Tf.rows Tf.rank Nat.max Tf.of_rows].
  unfold Tf.bzip at 1.
  assert (mapM (Tf.bzip (λ x y, Some (f x y)) rs) (map (λ x, [x]) vs)
          = Some (map (λ v, map (λ r, f r v) rs) vs)) as ->; [|done].
  induction vs as [|v vs IH]; [done|].
  cbn [map mapM]. rewrite bzip_against_singleton, IH. done.
Qed.


Lemma entries_vec l : Tf.entries (Tf.Vec l) = l.
Proof. unfold Tf.entries; cbn. apply app_nil_r. Qed.



(** ** The losses of [train_step_ppo] *)

Section Losses.
Context {Obs : Type} {N : Networks Obs} {Smp : Sampler}.

Lemma surrogate_zip eps (ratio adv : list Q) :
  zip_with Qmin (zip_with Qmult ratio adv)
    (zip_with Qmult
       (map (λ x, Qmin (Qmax x (1 - eps)) (1 + eps)) ratio) adv)
  = zip_with (λ r a, Qmin (r * a) (clip r (1 - eps) (1 + eps) * a)) ratio adv.
Proof.
  revert adv; induction ratio as [|r ratio IH]; intros [|a adv]; [done..|].
  cbn [map zip_with]. by rewrite IH.
Qed.

(** On rank-one advantages and old probabilities aligned with the
    recomputed probabilities, the policy loss is [L_clip]. *)
Lemma loss_clip_of_aligned eps x actions adv probs g θ new_probs :
  Categorical_prob (actor_forward θ x) actions = Some new_probs →
  length new_probs = length probs →
  length probs = length adv →
  PPO.loss_clip_of eps x actions (Tf.Vec adv) (Tf.Vec probs) g θ
  = Some (L_clip eps new_probs probs adv).
Proof.
  intros Hp Hnp Hpa. unfold PPO.loss_clip_of, PPO.get_action_with.
  rewrite Hp. cbn [mbind option_bind].
  unfold Tf.divide. rewrite broadcast_vec by done. cbn [mbind option_bind].
  unfold Tf.multiply, Tf.minimum, Tf.clip_by_value. cbn [Tf.tmap].
  rewrite broadcast_vec by solve_length.
  rewrite broadcast_vec by solve_length.
  cbn [mbind option_bind].
  rewrite broadcast_vec by solve_length.
  cbn [mbind option_bind]. unfold Tf.reduce_mean.
  rewrite entries_vec, surrogate_zip. done.
Qed.


(** When the returns come as a rank-one array, the subtraction stretches
    both operands: the value loss is the mean of the squared differences
    over every pair of a return and a predicted value. *)
Lemma loss_value_of_rank_one x returns φ :
  PPO.loss_value_of x (Tf.Vec returns) φ
  = Some (meanQ (concat (map (λ v, map (λ r, (r - v) * (r - v)) returns)
                           (critic_forward φ x)))).
Proof.
  unfold PPO.loss_value_of, Tf.subtract. rewrite broadcast_vec_column.
  cbn [mbind option_bind]. unfold Tf.reduce_mean, Tf.square, Tf.entries.
  cbn [Tf.tmap Tf.rows]. do 3 f_equal. rewrite map_map.
  apply map_ext. intros v. by rewrite map_map.
Qed.

End Losses.

(** ** Means and ratio one *)

Lemma sumQ_Forall2 (l k : list Q) : Forall2 Qeq l k → sumQ l == sumQ k.
Proof.
  induction 1 as [|x y l k Hxy _ IH]; [reflexivity|].
  cbn. by rewrite Hxy, IH.
Qed.

Lemma meanQ_Forall2 (l k : list Q) : Forall2 Qeq l k → meanQ l == meanQ k.
Proof.
  intros H. unfold meanQ.
  rewrite (sumQ_Forall2 _ _ H), (Forall2_length _ _ _ H). reflexivity.
Qed.

Lemma ratio_one (n o : Q) : n == o → ¬ o == 0 → n / o == 1.
Proof. intros -> Ho. field. exact Ho. Qed.

(** At ratio one the clipped term and the unclipped term are both the
    advantage, whatever the clip range [eps >= 0]. *)
Lemma surrogate_ratio_one (eps r a : Q) :
  0 <= eps → r == 1 →
  Qmin (r * a) (clip r (1 - eps) (1 + eps) * a) == a.
Proof.
  intros Heps Hr. unfold clip. rewrite Hr.
  rewrite (Q.max_l 1 (1 - eps)).
  - rewrite (Q.min_l 1 (1 + eps)).
    + rewrite Qmult_1_l. apply Q.min_id.
    + rewrite <- (Qplus_0_r 1) at 1. apply Qplus_le_r, Heps.
  - rewrite <- (Qplus_0_r 1) at 2. unfold Qminus.
    apply Qplus_le_r. apply (Qopp_le_compat 0 eps) in Heps. exact Heps.
Qed.

Lemma L_clip_ratio_one (eps : Q) (new_probs probs adv : list Q) :
  0 <= eps →
  Forall2 Qeq new_probs probs →
  Forall (λ p, ¬ p == 0) probs →
  length adv = length probs →
  L_clip eps new_probs probs adv == - meanQ adv.
Proof.
  intros Heps Heq Hnz Hlen. unfold L_clip. apply Qopp_comp, meanQ_Forall2.
  revert adv Hlen Hnz.
  induction Heq as [|n o ns os Hno _ IH]; intros [|a adv] Hlen Hnz;
    try discriminate; [constructor|].
  apply Forall_cons in Hnz as [Ho Hnz]. cbn [zip_with]. constructor.
  - apply surrogate_ratio_one; [done|]. by apply ratio_one.
  - apply IH; [by injection Hlen | done].
Qed.

(** ** [train_step_ppo] and [get_action] *)

Section Update_step.
Context {Obs : Type} {N : Networks Obs} {Smp : Sampler}.

(** [train_step_ppo] succeeds exactly when both losses evaluate, and then
    returns them. *)
Lemma train_step_ppo_losses (self : PPO.Agent Obs) obs actions adv probs
    returns g lc lv :
  PPO.loss_clip_of (PPO.epsilon self) obs actions adv probs g (PPO.actor self)
    = Some lc →
  PPO.loss_value_of obs returns (PPO.critic self) = Some lv →
  ∃ self',
    PPO.train_step_ppo self obs actions adv probs returns g
    = Some ((lc, lv), self').
Proof.
  intros Hc Hv. unfold PPO.train_step_ppo. rewrite Hc, Hv.
  cbn [mbind option_bind].
  destruct (apply_gradients_actor _ _ _) as [oa θ'].
  destruct (apply_gradients_critic _ _ _) as [oc φ']. eauto.
Qed.


(** C6.  When the recomputed probability of every stored action equals its
    stored (non-zero) probability, the policy loss that [train_step_ppo]
    returns is [-mean(advantage)], for every clip range [epsilon >= 0]. *)
Theorem train_step_ppo_ratio_one (self : PPO.Agent Obs) obs actions
    (adv probs returns : list Q) g new_probs :
  0 <= PPO.epsilon self →
  Categorical_prob (actor_forward (PPO.actor self) obs) actions
    = Some new_probs →
  Forall2 Qeq new_probs probs →
  Forall (λ p, ¬ p == 0) probs →
  length adv = length probs →
  ∃ loss_clip loss_value self',
    PPO.train_step_ppo self obs actions (Tf.Vec adv) (Tf.Vec probs)
      (Tf.Vec returns) g
    = Some ((loss_clip, loss_value), self')
    ∧ loss_clip == - meanQ adv.
Proof.
  intros Heps Hp Heq Hnz Hlen.
  pose proof (Forall2_length _ _ _ Heq) as Hnp.
  destruct (train_step_ppo_losses self obs actions (Tf.Vec adv) (Tf.Vec probs)
              (Tf.Vec returns) g _ _
              (loss_clip_of_aligned _ _ _ _ _ g _ _ Hp Hnp (eq_sym Hlen))
              (loss_value_of_rank_one obs returns (PPO.critic self)))
    as [self' Hstep].
  eexists _, _, self'. split; [exact Hstep|].
  by apply L_clip_ratio_one.
Qed.

(** C7.  A successful [train_step_ppo] returns the two losses; the actor's
    variables and its optimizer are the result of applying, through the
    actor's optimizer, the gradient of the policy loss alone, and the
    critic's those of the value loss alone through the critic's optimizer;
    every other field of the agent is unchanged.  The new actor does not
    depend on the critic or the returns, nor the new critic on the actor,
    the actions, the advantages, the old probabilities or the clip range. *)
Theorem train_step_ppo_frame (self : PPO.Agent Obs) obs actions adv probs
    returns g loss self' :
  PPO.train_step_ppo self obs actions adv probs returns g = Some (loss, self') →
  let Lc := PPO.loss_clip_of (PPO.epsilon self) obs actions adv probs g in
  let Lv := PPO.loss_value_of obs returns in
  (Lc (PPO.actor self) = Some loss.1 ∧ Lv (PPO.critic self) = Some loss.2)
  ∧ (PPO.optimizer_actor self', PPO.actor self')
    = apply_gradients_actor (PPO.optimizer_actor self)
        (gradient_actor Lc (PPO.actor self)) (PPO.actor self)
  ∧ (PPO.optimizer_critic self', PPO.critic self')
    = apply_gradients_critic (PPO.optimizer_critic self)
        (gradient_critic Lv (PPO.critic self)) (PPO.critic self)
  ∧ (PPO._gamma self' = PPO._gamma self ∧ PPO._lmbda self' = PPO._lmbda self
     ∧ PPO.epsilon self' = PPO.epsilon self ∧ PPO.lr self' = PPO.lr self
     ∧ PPO.n_outputs self' = PPO.n_outputs self)
  ∧ (∀ other returns2 loss2 other',
       PPO.actor other = PPO.actor self →
       PPO.optimizer_actor other = PPO.optimizer_actor self →
       PPO.epsilon other = PPO.epsilon self →
       PPO.train_step_ppo other obs actions adv probs returns2 g
         = Some (loss2, other') →
       PPO.actor other' = PPO.actor self'
       ∧ PPO.optimizer_actor other' = PPO.optimizer_actor self')
  ∧ (∀ other actions2 adv2 probs2 loss2 other',
       PPO.critic other = PPO.critic self →
       PPO.optimizer_critic other = PPO.optimizer_critic self →
       PPO.train_step_ppo other obs actions2 adv2 probs2 returns g
         = Some (loss2, other') →
       PPO.critic other' = PPO.critic self'
       ∧ PPO.optimizer_critic other' = PPO.optimizer_critic self').
Proof.
  intros Hstep Lc Lv.
  assert (∀ s a ad p r l s',
    PPO.train_step_ppo s obs a ad p r g = Some (l, s') →
    (PPO.optimizer_actor s', PPO.actor s')
    = apply_gradients_actor (PPO.optimizer_actor s)
        (gradient_actor (PPO.loss_clip_of (PPO.epsilon s) obs a ad p g)
           (PPO.actor s)) (PPO.actor s)
    ∧ (PPO.optimizer_critic s', PPO.critic s')
      = apply_gradients_critic (PPO.optimizer_critic s)
          (gradient_critic (PPO.loss_value_of obs r) (PPO.critic s))
          (PPO.critic s)) as Hupd.
  { intros s a ad p r l s' H. unfold PPO.train_step_ppo in H.
    destruct (PPO.loss_clip_of _ _ _ _ _ _ _); [|discriminate].
    destruct (PPO.loss_value_of _ _ _); [|discriminate].
    cbn [mbind option_bind] in H.
    destruct (apply_gradients_actor _ _ _) as [oa θ'].
    destruct (apply_gradients_critic _ _ _) as [oc φ'].
    injection H as _ <-. done. }
  destruct (Hupd _ _ _ _ _ _ _ Hstep) as [Ha Hc].
  split; [|split; [exact Ha|split; [exact Hc|split; [|split]]]].
  - unfold PPO.train_step_ppo in Hstep. subst Lc Lv.
    destruct (PPO.loss_clip_of _ _ _ _ _ _ _); [|discriminate].
    destruct (PPO.loss_value_of _ _ _); [|discriminate].
    cbn [mbind option_bind] in Hstep.
    destruct (apply_gradients_actor _ _ _), (apply_gradients_critic _ _ _).
    by injection Hstep as <- _.
  - unfold PPO.train_step_ppo in Hstep.
    destruct (PPO.loss_clip_of _ _ _ _ _ _ _); [|discriminate].
    destruct (PPO.loss_value_of _ _ _); [|discriminate].
    cbn [mbind option_bind] in Hstep.
    destruct (apply_gradients_actor _ _ _), (apply_gradients_critic _ _ _).
    by injection Hstep as _ <-.
  - intros other returns2 loss2 other' E1 E2 E3 H2.
    destruct (Hupd _ _ _ _ _ _ _ H2) as [Ha2 _].
    rewrite E1, E2, E3 in Ha2. rewrite <- Ha in Ha2.
    by injection Ha2.
  - intros other actions2 adv2 probs2 loss2 other' E1 E2 H2.
    destruct (Hupd _ _ _ _ _ _ _ H2) as [_ Hc2].
    rewrite E1, E2 in Hc2. rewrite <- Hc in Hc2.
    by injection Hc2.
Qed.

(** What [Categorical_prob] returns on one class per row: for every sample
    the entry of its row at its class. *)
Lemma Categorical_prob_lookup (logits : list (list Q)) (a : list Z) p :
  length logits = length a →
  Categorical_prob logits a = Some p →
  ∀ i k, a !! i = Some k →
    ∃ row q, logits !! i = Some row ∧ (0 ≤ k)%Z
             ∧ row !! Z.to_nat k = Some q ∧ p !! i = Some q.
Proof.
  intros Hll Hp i k Hk. unfold Categorical_prob in Hp.
  rewrite bzip_same_length in Hp by done.
  pose proof (lookup_lt_Some _ _ _ Hk) as Hi.
  destruct (lookup_lt_is_Some_2 logits i) as [row Hrow]; [lia|].
  assert (zip logits a !! i = Some (row, k)) as Hz
    by (apply lookup_zip_with_Some; eauto).
  apply mapM_Some in Hp.
  destruct (Forall2_lookup_l _ _ _ _ _ Hp Hz) as (q & Hq & Hc).
  cbn in Hc. unfold class_prob in Hc. case_decide; [|discriminate].
  exists row, q. done.
Qed.

(** [Categorical_prob] succeeds when every class lies within its row. *)
Lemma Categorical_prob_in_range (logits : list (list Q)) (a : list Z) :
  length logits = length a →
  (∀ i k row, a !! i = Some k → logits !! i = Some row →
     (0 ≤ k < Z.of_nat (length row))%Z) →
  is_Some (Categorical_prob logits a).
Proof.
  intros Hll Hin. unfold Categorical_prob.
  rewrite bzip_same_length by done.
  apply mapM_is_Some, Forall_lookup. intros i [row k] Hz.
  apply lookup_zip_with_Some in Hz as (row' & k' & [= <- <-] & Hrow & Hk).
  specialize (Hin i k row Hk Hrow). cbn. unfold class_prob.
  rewrite decide_True by lia. apply lookup_lt_is_Some_2. lia.
Qed.

(** C8.  [get_action] with a supplied action returns that action and
    leaves the sampler's generator as it was; with no action it returns the
    classes the sampler draws from the actor's rows, the generator advanced
    by that one draw.  In both cases it returns with them, for every sample,
    the mass that the sample's row of class probabilities under the current
    actor gives to its class, and it does return whenever every class lies
    within its row. *)
Theorem get_action_supplied_or_sampled (self : PPO.Agent Obs) x action g :
  let logits := actor_forward (PPO.actor self) x in
  let chosen :=
    match action with
    | Some given => (given, g)
    | None => categorical_sample g logits
    end in
  (∀ r, PPO.get_action self x action g = Some r ↔
        ∃ p, r = ((chosen.1, p), chosen.2)
             ∧ Categorical_prob logits chosen.1 = Some p)
  ∧ (length chosen.1 = length x →
     ∀ p, Categorical_prob logits chosen.1 = Some p →
     ∀ i k, chosen.1 !! i = Some k →
       ∃ row q, logits !! i = Some row ∧ (0 ≤ k)%Z
                ∧ row !! Z.to_nat k = Some q ∧ p !! i = Some q)
  ∧ (length chosen.1 = length x →
     (∀ i k row, chosen.1 !! i = Some k → logits !! i = Some row →
        (0 ≤ k < Z.of_nat (length row))%Z) →
     is_Some (PPO.get_action self x action g)).
Proof.
  intros logits chosen.
  assert (length logits = length x) as Hlx
    by (unfold logits; apply actor_forward_length).
  assert (PPO.get_action self x action g
          = p ← Categorical_prob logits chosen.1;
            Some ((chosen.1, p), chosen.2)) as Hget.
  { unfold PPO.get_action, PPO.get_action_with. fold logits. subst chosen.
    destruct action as [given|]; [done|].
    by destruct (categorical_sample g logits) as [a0 g0]. }
  split; [|split].
  - intros r. rewrite Hget.
    destruct (Categorical_prob logits chosen.1) as [p|]; cbn.
    + split; [intros [= <-]; eauto|]. by intros (p' & -> & [= <-]).
    + split; [done|]. by intros (p' & _ & ?).
  - intros Hlen p Hp. apply Categorical_prob_lookup; [lia|done].
  - intros Hlen Hin. rewrite Hget.
    destruct (Categorical_prob_in_range logits chosen.1) as [p ->];
      [lia|done|]. by eexists.
Qed.

End Update_step.

(** *** The update step on the concrete world *)

(** C5.  A minibatch of two samples whose returns [0, 1] are exactly the
    critic's predictions [0, 1], given rank-one as slices of the flattened
    buffer are.  The policy loss is [L_clip].  The value loss is not the
    mean squared error of predictions against returns, which is 0 here: the
    critic's output has shape [2, 1], the subtraction stretches it against
    the rank-one returns to shape [2, 2], and the mean runs over all four
    pairs, giving 1/2. *)
Theorem train_step_ppo_value_loss_pairs :
  let self := Toy.agent (1 # 5) in
  let obs := [0; 1]%Z in
  let returns := [0; 1] in
  ∃ loss_clip loss_value self',
    PPO.train_step_ppo self obs [0; 0]%Z (Tf.Vec [1; 2])
      (Tf.Vec [1 # 2; 1 # 2]) (Tf.Vec returns) (Toy.seed 0)
    = Some ((loss_clip, loss_value), self')
    ∧ loss_clip == L_clip (1 # 5) [1 # 2; 1 # 2] [1 # 2; 1 # 2] [1; 2]
    ∧ Forall2 Qeq (critic_forward (PPO.critic self) obs) returns
    ∧ mse (critic_forward (PPO.critic self) obs) returns == 0
    ∧ loss_value == 1 # 2.
Proof.
  intros self obs returns.
  assert (PPO.loss_clip_of (PPO.epsilon self) obs [0; 0]%Z (Tf.Vec [1; 2])
            (Tf.Vec [1 # 2; 1 # 2]) (Toy.seed 0) (PPO.actor self)
          = Some (L_clip (1 # 5) [1 # 2; 1 # 2] [1 # 2; 1 # 2] [1; 2])) as Hc
    by (by apply loss_clip_of_aligned).
  destruct (train_step_ppo_losses self obs [0; 0]%Z (Tf.Vec [1; 2])
              (Tf.Vec [1 # 2; 1 # 2]) (Tf.Vec returns) (Toy.seed 0) _ _ Hc
              (loss_value_of_rank_one obs returns (PPO.critic self)))
    as [self' Hstep].
  eexists _, _, self'. split; [exact Hstep|].
  split; [reflexivity|]. split; [by repeat constructor|].
  split; vm_compute; reflexivity.
Qed.

Lemma train_step_ppo_ratio_one_witness :
  ∃ loss_clip loss_value self',
    PPO.train_step_ppo (Toy.agent (1 # 5)) [0; 1]%Z [0; 1]%Z (Tf.Vec [1; 2])
      (Tf.Vec [1 # 2; 1 # 2]) (Tf.Vec [0; 1]) (Toy.seed 0)
    = Some ((loss_clip, loss_value), self')
    ∧ loss_clip == - meanQ [1; 2].
Proof.
  apply (train_step_ppo_ratio_one (Toy.agent (1 # 5)) [0; 1]%Z [0; 1]%Z
           [1; 2] [1 # 2; 1 # 2] [0; 1] (Toy.seed 0) [1 # 2; 1 # 2]).
  - unfold Qle; simpl; lia.
  - reflexivity.
  - repeat constructor.
  - repeat constructor; unfold Qeq; simpl; lia.
  - reflexivity.
Defined.

Lemma train_step_ppo_frame_witness :
  ∃ loss self',
    PPO.train_step_ppo (Toy.agent (1 # 5)) [0; 1]%Z [0; 0]%Z (Tf.Vec [1; 2])
      (Tf.Vec [1 # 2; 1 # 2]) (Tf.Vec [0; 1]) (Toy.seed 0)
    = Some (loss, self')
    ∧ PPO._gamma self' = 9 # 10 ∧ PPO._lmbda self' = 95 # 100
    ∧ PPO.epsilon self' = 1 # 5 ∧ PPO.lr self' = 1 # 1000
    ∧ PPO.n_outputs self' = 2%nat.
Proof.
  eexists _, _. split; [vm_compute; reflexivity|].
  eapply (λ H, proj1 (proj2 (proj2 (proj2
            (train_step_ppo_frame (Toy.agent (1 # 5)) [0; 1]%Z [0; 0]%Z
               (Tf.Vec [1; 2]) (Tf.Vec [1 # 2; 1 # 2]) (Tf.Vec [0; 1]) (Toy.seed 0)
               _ _ H))))).
  vm_compute; reflexivity.
Defined.

(** ** [DQN_Agent.epsilon_greedy_policy] *)

Lemma pmf_randint_3 (k : Z) :
  pmf (np_random_randint 3) k == if decide (0 ≤ k < 3)%Z then 1 # 3 else 0.
Proof.
  unfold pmf, np_random_randint. cbn [seq map filter list_filter].
  change (Z.of_nat 0) with 0%Z. change (Z.of_nat 1) with 1%Z.
  change (Z.of_nat 2) with 2%Z. cbn [fst].
  repeat case_decide; subst; try lia; vm_compute; reflexivity.
Qed.

Section Exploration.
Context {State : Type} {QN : DQN.QNetwork State}.

(** C10.  When the draw [u] of [np.random.rand()] is below [epsilon], the
    action returned by [epsilon_greedy_policy] follows the uniform law on
    the integers 0, 1, 2: each has probability 1/3 and no other integer has
    any.  The law is the same for every agent, whatever its [n_outputs] and
    its network. *)
Theorem epsilon_greedy_explores_uniform_3 (self : DQN.Agent State)
    (state : State) (epsilon u : Q) :
  u < epsilon →
  ∃ d, DQN.epsilon_greedy_policy self state epsilon u = Some d
       ∧ (∀ k, pmf d k == if decide (0 ≤ k < 3)%Z then 1 # 3 else 0)
       ∧ (∀ (other : DQN.Agent State) (state' : State),
            DQN.epsilon_greedy_policy other state' epsilon u = Some d).
Proof.
  intros Hu. exists (np_random_randint 3).
  assert (∀ (a : DQN.Agent State) s,
            DQN.epsilon_greedy_policy a s epsilon u
            = Some (np_random_randint 3)) as Hbranch.
  { intros a s. unfold DQN.epsilon_greedy_policy.
    destruct (Qlt_le_dec u epsilon) as [_|Hle]; [done|].
    exfalso. by apply (Qlt_not_le u epsilon). }
  split; [apply Hbranch|]. split; [apply pmf_randint_3|apply Hbranch].
Qed.

End Exploration.

Lemma epsilon_greedy_explores_uniform_3_witness :
  ∃ d, DQN.epsilon_greedy_policy Toy.dqn_agent 7%Z (1 # 10) (1 # 20) = Some d
       ∧ (∀ k, pmf d k == if decide (0 ≤ k < 3)%Z then 1 # 3 else 0)
       ∧ (∀ (other : @DQN.Agent Z Toy.q_network) (state' : Z),
            DQN.epsilon_greedy_policy other state' (1 # 10) (1 # 20) = Some d).
Proof.
  apply (epsilon_greedy_explores_uniform_3 Toy.dqn_agent 7%Z (1 # 10) (1 # 20)).
  unfold Qlt; simpl; lia.
Defined.

(** ** The backward walks of [utils] *)

Lemma chained_cons step n acc :
  chained step (S n) acc →
  chained step n (step n (default 0 (acc !! 0%nat)) :: acc).
Proof.
  intros Hacc [|j] Hj.
  - by rewrite Nat.add_0_r.
  - cbn [length] in Hj. specialize (Hacc j ltac:(lia)).
    replace (n + S j)%nat with (S n + j)%nat by lia. exact Hacc.
Qed.

Section Walk_facts.
Variables (rewards values : list Q) (gamma lmbda : Q).
Variables (terminateds truncateds : list bool) (next_val : Q).
Variable last_t : nat.

Local Abbreviation adv_step :=
  (advantage_step rewards values gamma lmbda terminateds truncateds
     next_val last_t).
Local Abbreviation ret_step := (return_step rewards gamma terminateds truncateds).

Hypothesis rewards_long : (last_t < length rewards)%nat.
Hypothesis values_long : (last_t < length values)%nat.
Hypothesis terminateds_long : (last_t < length terminateds)%nat.
Hypothesis truncateds_long : (last_t < length truncateds)%nat.

Lemma adv_walk_step (t : nat) (ts : list nat) (adv_next : Q) (acc : list Q) :
  (t ≤ last_t)%nat →
  Utils.adv_walk rewards values gamma lmbda terminateds truncateds next_val
    last_t (t :: ts) adv_next acc
  = Utils.adv_walk rewards values gamma lmbda terminateds truncateds next_val
      last_t ts (adv_step t adv_next) (adv_step t adv_next :: acc).
Proof.
  intros Ht. cbn [Utils.adv_walk].
  unfold advantage_step, delta_at, continue_at, next_value_at.
  destruct (lookup_lt_is_Some_2 rewards t) as [r ->]; [lia|].
  destruct (lookup_lt_is_Some_2 values t) as [v ->]; [lia|].
  destruct (lookup_lt_is_Some_2 terminateds t) as [te ->]; [lia|].
  destruct (lookup_lt_is_Some_2 truncateds t) as [tr ->]; [lia|].
  cbn [mbind option_bind default]. case_decide; [done|].
  destruct (lookup_lt_is_Some_2 values (S t)) as [v' ->]; [lia|]. done.
Qed.

Lemma ret_walk_step (t : nat) (ts : list nat) (ret_next : Q) (acc : list Q) :
  (t ≤ last_t)%nat →
  Utils.ret_walk rewards gamma terminateds truncateds (t :: ts) ret_next acc
  = Utils.ret_walk rewards gamma terminateds truncateds ts
      (ret_step t ret_next) (ret_step t ret_next :: acc).
Proof.
  clear values_long.
  intros Ht. cbn [Utils.ret_walk]. unfold return_step, continue_at.
  destruct (lookup_lt_is_Some_2 rewards t) as [r ->]; [lia|].
  destruct (lookup_lt_is_Some_2 terminateds t) as [te ->]; [lia|].
  destruct (lookup_lt_is_Some_2 truncateds t) as [tr ->]; [lia|]. done.
Qed.

Lemma adv_walk_chained (n : nat) (acc : list Q) :
  (n + length acc = S last_t)%nat →
  chained adv_step n acc →
  ∃ advs,
    Utils.adv_walk rewards values gamma lmbda terminateds truncateds next_val
      last_t (reverse (seq 0 n)) (default 0 (acc !! 0%nat)) acc = Some advs
    ∧ length advs = S last_t ∧ chained adv_step 0 advs.
Proof.
  revert acc. induction n as [|n IH]; intros acc Hlen Hacc.
  - exists acc. done.
  - rewrite seq_S, reverse_snoc, Nat.add_0_l, adv_walk_step by lia.
    apply (IH (adv_step n (default 0 (acc !! 0%nat)) :: acc)).
    + cbn. lia.
    + by apply chained_cons.
Qed.

Lemma ret_walk_chained (n : nat) (acc : list Q) :
  (n + length acc = S last_t)%nat →
  chained ret_step n acc →
  ∃ rets,
    Utils.ret_walk rewards gamma terminateds truncateds
      (reverse (seq 0 n)) (default 0 (acc !! 0%nat)) acc = Some rets
    ∧ length rets = S last_t ∧ chained ret_step 0 rets.
Proof.
  clear values_long.
  revert acc. induction n as [|n IH]; intros acc Hlen Hacc.
  - exists acc. done.
  - rewrite seq_S, reverse_snoc, Nat.add_0_l, ret_walk_step by lia.
    apply (IH (ret_step n (default 0 (acc !! 0%nat)) :: acc)).
    + cbn. lia.
    + by apply chained_cons.
Qed.

(** [calc_adv_list] returns one advantage per timestep, each obtained
    from the next by the GAE recurrence. *)
Lemma calc_adv_list_chained :
  ∃ advs,
    Utils.calc_adv_list last_t 0 rewards values gamma lmbda
      terminateds truncateds next_val = Some advs
    ∧ length advs = S last_t
    ∧ ∀ t, (t ≤ last_t)%nat →
        advs !! t = Some (adv_step t (default 0 (advs !! S t))).
Proof.
  unfold Utils.calc_adv_list. rewrite Nat.sub_0_r.
  destruct (adv_walk_chained (S last_t) []) as (advs & Hw & Hlen & Hch).
  - cbn. lia.
  - intros j Hj. cbn in Hj. lia.
  - exists advs. split; [exact Hw|]. split; [exact Hlen|].
    intros t Ht. apply (Hch t). lia.
Qed.

Lemma calc_returns_chained :
  ∃ rets,
    Utils.calc_returns last_t 0 rewards gamma terminateds truncateds
      = Some rets
    ∧ length rets = S last_t
    ∧ ∀ t, (t ≤ last_t)%nat →
        rets !! t = Some (ret_step t (default 0 (rets !! S t))).
Proof.
  clear values_long.
  unfold Utils.calc_returns. rewrite Nat.sub_0_r.
  destruct (ret_walk_chained (S last_t) []) as (rets & Hw & Hlen & Hch).
  - cbn. lia.
  - intros j Hj. cbn in Hj. lia.
  - exists rets. split; [exact Hw|]. split; [exact Hlen|].
    intros t Ht. apply (Hch t). lia.
Qed.

End Walk_facts.

(** ** Shapes of the buffer's arrays *)

Lemma column_shaped {A} (T E e : nat) (a : list (list A)) :
  shaped T E a → (e < E)%nat →
  ∃ col, column e a = Some col ∧ length col = T
         ∧ ∀ t, col !! t = cell a t e.
Proof.
  intros [<- Hrows] He. unfold column, cell.
  induction a as [|row a IH]; [by exists []|].
  apply Forall_cons in Hrows as [Hrow Hrows].
  destruct (IH Hrows) as (col & Hcol & Hlen & Hlook).
  destruct (lookup_lt_is_Some_2 row e) as [x Hx]; [lia|].
  exists (x :: col). cbn [mapM]. rewrite Hx, Hcol. cbn.
  split; [done|]. split; [by rewrite Hlen|].
  intros [|t]; cbn; [done|]. apply Hlook.
Qed.

Lemma cell_shaped {A} (T E t e : nat) (a : list (list A)) :
  shaped T E a → (t < T)%nat → (e < E)%nat → is_Some (cell a t e).
Proof.
  intros [<- Hrows] Ht He. unfold cell.
  destruct (lookup_lt_is_Some_2 a t Ht) as [row Hrow]. rewrite Hrow. cbn.
  apply lookup_lt_is_Some_2.
  rewrite Forall_lookup in Hrows. by rewrite (Hrows t row Hrow).
Qed.

Lemma squeeze_column (v : list Q) :
  length v ≠ 1%nat → Tf.squeeze (Tf.column v) = Tf.Vec v.
Proof.
  intros Hv. unfold Tf.column.
  assert (mapM (λ r : list Q, match r with [x] => Some x | _ => None end)
            (map (λ x, [x]) v) = Some v) as Hm.
  { clear Hv. induction v as [|x v IH]; [done|]. cbn. by rewrite IH. }
  destruct v as [|x [|y v]]; [done|done|].
  cbn [map] in *. cbn [Tf.squeeze]. by rewrite Hm.
Qed.

(** A [mapM] over [range(n)] that succeeds at every index. *)
Lemma mapM_seq_Some {B} (f : nat → option B) (n : nat) :
  (∀ i, (i < n)%nat → is_Some (f i)) →
  ∃ l, mapM f (seq 0 n) = Some l ∧ length l = n
       ∧ ∀ i, (i < n)%nat → l !! i = f i.
Proof.
  intros Hf.
  assert (is_Some (mapM f (seq 0 n))) as [l Hl].
  { apply mapM_is_Some, Forall_forall. intros i Hi.
    apply elem_of_seq in Hi. apply Hf. lia. }
  exists l. split; [done|].
  pose proof (length_mapM _ _ _ Hl) as Hlen. rewrite length_seq in Hlen.
  split; [done|]. intros i Hi.
  apply mapM_Some in Hl.
  destruct (Forall2_lookup_l _ _ _ i i Hl) as (y & Hy & Hfy).
  { apply lookup_seq. lia. }
  by rewrite Hy, Hfy.
Qed.

(** ** Advantages and returns of one update *)

Section Estimate.
Context {Obs : Type} {N : Networks Obs} {Smp : Sampler} {E : VectorEnv Obs}.

(** On a well-shaped buffer [estimate] returns, and its rows are the
    results of [calc_adv_list] and [calc_returns] on the columns of the
    buffer, bootstrapped with the critic's value of the current
    observation. *)
Lemma estimate_rows (self : PPO.Agent Obs) (T : nat) (w : PPO.World Obs) :
  let mem := PPO.m w in
  let n := Mem.num_envs mem in
  (0 < T)%nat →
  shaped T n (Mem.rewards mem) → shaped T n (Mem.values mem) →
  shaped T n (Mem.terminateds mem) → shaped T n (Mem.truncateds mem) →
  length (PPO.observation w) ≠ 1%nat →
  (n ≤ length (PPO.observation w))%nat →
  ∃ advantages returns,
    PPO.estimate self T w
    = Some (PPO.mkWorld Obs E Smp (PPO.envs w) (PPO.rng w)
              (Mem.set_returns returns (Mem.set_advantages advantages mem))
              (PPO.observation w))
    ∧ length advantages = n ∧ length returns = n
    ∧ ∀ e, (e < n)%nat →
        ∃ rew val term trunc nv,
          column e (Mem.rewards mem) = Some rew
          ∧ column e (Mem.values mem) = Some val
          ∧ column e (Mem.terminateds mem) = Some term
          ∧ column e (Mem.truncateds mem) = Some trunc
          ∧ critic_forward (PPO.critic self) (PPO.observation w) !! e = Some nv
          ∧ advantages !! e
            = Utils.calc_adv_list (T - 1) 0 rew val (PPO._gamma self)
                (PPO._lmbda self) term trunc nv
          ∧ returns !! e
            = Utils.calc_returns (T - 1) 0 rew (PPO._gamma self) term trunc.
Proof.
  intros mem n HT Hrew Hval Hterm Htrunc Hobs1 Hobs.
  pose proof (critic_forward_length (PPO.critic self) (PPO.observation w))
    as Hcl.
  unfold PPO.estimate, PPO.get_value.
  rewrite squeeze_column by (by rewrite Hcl). fold mem. fold n.
  set (fa := λ env_id : nat, _ : option (list Q)).
  assert (∀ e, (e < n)%nat →
    ∃ rew val term trunc nv,
      column e (Mem.rewards mem) = Some rew
      ∧ column e (Mem.values mem) = Some val
      ∧ column e (Mem.terminateds mem) = Some term
      ∧ column e (Mem.truncateds mem) = Some trunc
      ∧ critic_forward (PPO.critic self) (PPO.observation w) !! e = Some nv
      ∧ length rew = T ∧ length val = T ∧ length term = T
      ∧ length trunc = T) as Hcols.
  { intros e He.
    destruct (column_shaped T n e _ Hrew He) as (rew & -> & ? & _).
    destruct (column_shaped T n e _ Hval He) as (val & -> & ? & _).
    destruct (column_shaped T n e _ Hterm He) as (term & -> & ? & _).
    destruct (column_shaped T n e _ Htrunc He) as (trunc & -> & ? & _).
    destruct (lookup_lt_is_Some_2
                (critic_forward (PPO.critic self) (PPO.observation w)) e)
      as [nv ->]; [lia|].
    by exists rew, val, term, trunc, nv. }
  destruct (mapM_seq_Some fa n) as (advantages & Ha & Hla & Hia).
  { intros e He.
    destruct (Hcols e He) as (rew & val & term & trunc & nv & Hr & Hv & Hte
                              & Htr & Hnv & ? & ? & ? & ?).
    subst fa. cbn beta. rewrite Hr, Hv, Hte, Htr. cbn [mbind option_bind].
    unfold Tf.index. rewrite Hnv. cbn [mbind option_bind].
    destruct (calc_adv_list_chained rew val (PPO._gamma self)
                (PPO._lmbda self) term trunc nv (T - 1))
      as (advs & -> & _); [lia..|]. by eexists. }
  rewrite Ha. cbn [mbind option_bind].
  set (fr := λ env_id : nat, _ : option (list Q)).
  destruct (mapM_seq_Some fr n) as (returns & Hr & Hlr & Hir).
  { intros e He.
    destruct (Hcols e He) as (rew & val & term & trunc & nv & Hr & Hv & Hte
                              & Htr & Hnv & ? & ? & ? & ?).
    subst fr. cbn beta. cbn [Mem.rewards Mem.terminateds Mem.truncateds
                               Mem.set_advantages].
    fold mem. rewrite Hr, Hte, Htr. cbn [mbind option_bind].
    destruct (calc_returns_chained rew (PPO._gamma self) term trunc (T - 1))
      as (rets & -> & _); [lia..|]. by eexists. }
  change (Mem.num_envs (Mem.set_advantages advantages mem)) with n.
  rewrite Hr. cbn [mbind option_bind].
  exists advantages, returns. split; [done|]. split; [done|]. split; [done|].
  intros e He.
  destruct (Hcols e He) as (rew & val & term & trunc & nv & Hrw & Hv & Hte
                            & Htr & Hnv & _).
  exists rew, val, term, trunc, nv. repeat (split; [done|]).
  rewrite (Hia e He), (Hir e He). subst fa fr. cbn beta.
  cbn [Mem.rewards Mem.terminateds Mem.truncateds Mem.set_advantages].
  fold mem. rewrite Hrw, Hv, Hte, Htr. cbn [mbind option_bind].
  unfold Tf.index. rewrite Hnv. done.
Qed.

End Estimate.

Section Recurrences.
Context {Obs : Type} {N : Networks Obs} {Smp : Sampler} {E : VectorEnv Obs}.

Lemma cell_of_row {A} (a : list (list A)) (i j : nat) (row : list A) :
  a !! i = Some row → cell a i j = row !! j.
Proof. intros H. unfold cell. by rewrite H. Qed.

(** C3.  On a well-shaped buffer the advantage phase returns, and for
    every environment [e] and timestep [t] the stored advantage is
    [delta_t + gamma * lambda * continue_t * advantage_{t+1}] with
    [delta_t = reward_t + gamma * next_value * continue_t - value_t], where
    [continue_t] is 0 when the episode terminated or was truncated at [t]
    and 1 otherwise, [next_value] is the critic's value of the observation
    that follows the rollout at the last timestep and [value_{t+1}] before
    it, and the advantage past the last timestep counts as 0. *)
Theorem estimate_advantage_recurrence (self : PPO.Agent Obs) (T : nat)
    (w : PPO.World Obs) :
  let mem := PPO.m w in
  let n := Mem.num_envs mem in
  (0 < T)%nat →
  shaped T n (Mem.rewards mem) → shaped T n (Mem.values mem) →
  shaped T n (Mem.terminateds mem) → shaped T n (Mem.truncateds mem) →
  length (PPO.observation w) ≠ 1%nat →
  (n ≤ length (PPO.observation w))%nat →
  ∃ w', PPO.estimate self T w = Some w'
    ∧ ∀ e t, (e < n)%nat → (t < T)%nat →
      ∃ reward value terminated truncated advantage,
        cell (Mem.rewards mem) t e = Some reward
        ∧ cell (Mem.values mem) t e = Some value
        ∧ cell (Mem.terminateds mem) t e = Some terminated
        ∧ cell (Mem.truncateds mem) t e = Some truncated
        ∧ cell (Mem.advantages (PPO.m w')) e t = Some advantage
        ∧ let continue_t := Utils.continue terminated truncated in
          let next_value :=
            if decide (t = T - 1)%nat
            then default 0 (critic_forward (PPO.critic self)
                              (PPO.observation w) !! e)
            else default 0 (cell (Mem.values mem) (S t) e) in
          let advantage_next :=
            default 0 (cell (Mem.advantages (PPO.m w')) e (S t)) in
          let delta_t :=
            reward + PPO._gamma self * next_value * continue_t - value in
          advantage
          = delta_t + PPO._gamma self * PPO._lmbda self * continue_t
                      * advantage_next.
Proof.
  intros mem n HT Hrew Hval Hterm Htrunc Hobs1 Hobs.
  pose proof (estimate_rows self T w HT Hrew Hval Hterm Htrunc Hobs1 Hobs)
    as Hest0.
  subst mem n. cbn zeta in Hest0.
  destruct Hest0
    as (advantages & returns & Hest & Hla & Hlr & Hrows).
  eexists. split; [exact Hest|]. intros e t He Ht.
  destruct (Hrows e He) as (rew & val & term & trunc & nv & Hr & Hv & Hte
                            & Htr & Hnv & Hadv & _).
  destruct (column_shaped T _ e _ Hrew He) as (rew' & Hr' & Hlrew & Hcr).
  destruct (column_shaped T _ e _ Hval He) as (val' & Hv' & Hlval & Hcv).
  destruct (column_shaped T _ e _ Hterm He) as (term' & Hte' & Hlte & Hcte).
  destruct (column_shaped T _ e _ Htrunc He) as (trunc' & Htr' & Hltr & Hctr).
  rewrite Hr in Hr'. rewrite Hv in Hv'. rewrite Hte in Hte'.
  rewrite Htr in Htr'. injection Hr' as <-. injection Hv' as <-.
  injection Hte' as <-. injection Htr' as <-.
  destruct (calc_adv_list_chained rew val (PPO._gamma self) (PPO._lmbda self)
              term trunc nv (T - 1)) as (advs & Hcalc & Hladv & Hch);
    [lia..|].
  rewrite Hcalc in Hadv.
  destruct (cell_shaped T _ t e _ Hrew Ht He) as [reward Hreward].
  destruct (cell_shaped T _ t e _ Hval Ht He) as [value Hvalue].
  destruct (cell_shaped T _ t e _ Hterm Ht He) as [terminated Hterminated].
  destruct (cell_shaped T _ t e _ Htrunc Ht He) as [truncated Htruncated].
  cbn [PPO.m Mem.advantages Mem.set_returns Mem.set_advantages].
  rewrite !(cell_of_row advantages e _ advs Hadv).
  exists reward, value, terminated, truncated.
  eexists. repeat (split; [done|]).
  split; [apply Hch; lia|]. cbn zeta.
  unfold advantage_step, delta_at, continue_at, next_value_at.
  rewrite !Hcr, !Hcv, !Hcte, !Hctr.
  rewrite Hreward, Hvalue, Hterminated, Htruncated, Hnv. done.
Qed.

(** C4.  On a well-shaped buffer the stored return of every environment
    [e] and timestep [t] is [reward_t + gamma * continue_t * return_{t+1}],
    the return past the last timestep counting as 0.  For rewards
    [1, 2, 3], [gamma = 0.9] and no termination or truncation the returns
    are 5.23, 4.7 and 3. *)
Theorem estimate_return_recurrence (self : PPO.Agent Obs) (T : nat)
    (w : PPO.World Obs) :
  let mem := PPO.m w in
  let n := Mem.num_envs mem in
  (0 < T)%nat →
  shaped T n (Mem.rewards mem) → shaped T n (Mem.values mem) →
  shaped T n (Mem.terminateds mem) → shaped T n (Mem.truncateds mem) →
  length (PPO.observation w) ≠ 1%nat →
  (n ≤ length (PPO.observation w))%nat →
  (∃ w', PPO.estimate self T w = Some w'
     ∧ ∀ e t, (e < n)%nat → (t < T)%nat →
       ∃ reward terminated truncated ret,
         cell (Mem.rewards mem) t e = Some reward
         ∧ cell (Mem.terminateds mem) t e = Some terminated
         ∧ cell (Mem.truncateds mem) t e = Some truncated
         ∧ cell (Mem.returns (PPO.m w')) e t = Some ret
         ∧ ret = reward
                 + PPO._gamma self * Utils.continue terminated truncated
                   * default 0 (cell (Mem.returns (PPO.m w')) e (S t)))
  ∧ (∃ return_0 return_1 return_2,
       Utils.calc_returns 2 0 [1; 2; 3] (9 # 10)
         [false; false; false] [false; false; false]
       = Some [return_0; return_1; return_2]
       ∧ return_2 == 3 ∧ return_1 == 47 # 10 ∧ return_0 == 523 # 100).
Proof.
  intros mem n HT Hrew Hval Hterm Htrunc Hobs1 Hobs.
  pose proof (estimate_rows self T w HT Hrew Hval Hterm Htrunc Hobs1 Hobs)
    as Hest0.
  subst mem n. cbn zeta in Hest0. split.
  - destruct Hest0
      as (advantages & returns & Hest & Hla & Hlr & Hrows).
    eexists. split; [exact Hest|]. intros e t He Ht.
    destruct (Hrows e He) as (rew & val & term & trunc & nv & Hr & Hv & Hte
                              & Htr & Hnv & _ & Hret).
    destruct (column_shaped T _ e _ Hrew He) as (rew' & Hr' & Hlrew & Hcr).
    destruct (column_shaped T _ e _ Hterm He) as (term' & Hte' & Hlte & Hcte).
    destruct (column_shaped T _ e _ Htrunc He)
      as (trunc' & Htr' & Hltr & Hctr).
    rewrite Hr in Hr'. rewrite Hte in Hte'. rewrite Htr in Htr'.
    injection Hr' as <-. injection Hte' as <-. injection Htr' as <-.
    destruct (calc_returns_chained rew (PPO._gamma self) term trunc (T - 1))
      as (rets & Hcalc & Hlret & Hch); [lia..|].
    rewrite Hcalc in Hret.
    destruct (cell_shaped T _ t e _ Hrew Ht He) as [reward Hreward].
    destruct (cell_shaped T _ t e _ Hterm Ht He) as [terminated Hterminated].
    destruct (cell_shaped T _ t e _ Htrunc Ht He) as [truncated Htruncated].
    cbn [PPO.m Mem.returns Mem.set_returns].
    rewrite !(cell_of_row returns e _ rets Hret).
    exists reward, terminated, truncated.
    eexists. repeat (split; [done|]).
    split; [apply Hch; lia|].
    unfold return_step, continue_at.
    rewrite !Hcr, !Hcte, !Hctr.
    rewrite Hreward, Hterminated, Htruncated. done.
  - eexists _, _, _. split; [vm_compute; reflexivity|].
    repeat split; vm_compute; reflexivity.
Qed.

End Recurrences.

Lemma estimate_advantage_recurrence_witness :
  let self := Toy.agent (1 # 5) in
  let w := Toy.sample_world in
  let mem := PPO.m w in
  ∃ w', PPO.estimate self 3 w = Some w'
    ∧ ∀ e t, (e < 2)%nat → (t < 3)%nat →
      ∃ reward value terminated truncated advantage,
        cell (Mem.rewards mem) t e = Some reward
        ∧ cell (Mem.values mem) t e = Some value
        ∧ cell (Mem.terminateds mem) t e = Some terminated
        ∧ cell (Mem.truncateds mem) t e = Some truncated
        ∧ cell (Mem.advantages (PPO.m w')) e t = Some advantage
        ∧ let continue_t := Utils.continue terminated truncated in
          let next_value :=
            if decide (t = 3 - 1)%nat
            then default 0 (critic_forward (PPO.critic self)
                              (PPO.observation w) !! e)
            else default 0 (cell (Mem.values mem) (S t) e) in
          let advantage_next :=
            default 0 (cell (Mem.advantages (PPO.m w')) e (S t)) in
          let delta_t :=
            reward + PPO._gamma self * next_value * continue_t - value in
          advantage
          = delta_t + PPO._gamma self * PPO._lmbda self * continue_t
                      * advantage_next.
Proof.
  apply (estimate_advantage_recurrence (Toy.agent (1 # 5)) 3 Toy.sample_world).
  - lia.
  - split; [reflexivity|repeat constructor].
  - split; [reflexivity|repeat constructor].
  - split; [reflexivity|repeat constructor].
  - split; [reflexivity|repeat constructor].
  - simpl; lia.
  - simpl; lia.
Defined.

Lemma estimate_return_recurrence_witness :
  let self := Toy.agent (1 # 5) in
  let w := Toy.sample_world in
  let mem := PPO.m w in
  (∃ w', PPO.estimate self 3 w = Some w'
     ∧ ∀ e t, (e < 2)%nat → (t < 3)%nat →
       ∃ reward terminated truncated ret,
         cell (Mem.rewards mem) t e = Some reward
         ∧ cell (Mem.terminateds mem) t e = Some terminated
         ∧ cell (Mem.truncateds mem) t e = Some truncated
         ∧ cell (Mem.returns (PPO.m w')) e t = Some ret
         ∧ ret = reward
                 + PPO._gamma self * Utils.continue terminated truncated
                   * default 0 (cell (Mem.returns (PPO.m w')) e (S t)))
  ∧ (∃ return_0 return_1 return_2,
       Utils.calc_returns 2 0 [1; 2; 3] (9 # 10)
         [false; false; false] [false; false; false]
       = Some [return_0; return_1; return_2]
       ∧ return_2 == 3 ∧ return_1 == 47 # 10 ∧ return_0 == 523 # 100).
Proof.
  apply (estimate_return_recurrence (Toy.agent (1 # 5)) 3 Toy.sample_world).
  - lia.
  - split; [reflexivity|repeat constructor].
  - split; [reflexivity|repeat constructor].
  - split; [reflexivity|repeat constructor].
  - split; [reflexivity|repeat constructor].
  - simpl; lia.
  - simpl; lia.
Defined.

(** ** The minibatches of the optimization loops *)

Section Minibatches.
Context {Obs : Type} {N : Networks Obs} {Smp : Sampler}.

Lemma train_all_app mem g c1 c2 st :
  train_all mem g (c1 ++ c2) st
  = st' ← train_all mem g c1 st; train_all mem g c2 st'.
Proof.
  revert st; induction c1 as [|ids c1 IH]; intros st; [done|].
  cbn. destruct (PPO.train_on mem g ids st) as [st'|]; [|done]. apply IH.
Qed.

Lemma inner_loop_calls mem g ids (range : list nat) st :
  for_each (λ _ st, PPO.train_on mem g ids st) range st
  = train_all mem g (replicate (length range) ids) st.
Proof.
  revert st; induction range as [|mb range IH]; intros st; [done|].
  cbn. destruct (PPO.train_on mem g ids st) as [st'|]; [|done]. apply IH.
Qed.

(** The optimization loops make exactly the calls listed by
    [train_calls]. *)
Lemma optimize_calls mem g minibatch_size epochs st :
  PPO.optimize mem g minibatch_size epochs st
  = train_all mem g (train_calls minibatch_size epochs) st.
Proof.
  unfold PPO.optimize, train_calls.
  generalize (seq 0 epochs) as es. intros es. revert st.
  induction es as [|epoch es IH]; intros st; [done|].
  cbn [for_each map concat]. rewrite train_all_app, inner_loop_calls.
  rewrite length_seq.
  destruct (train_all mem g _ st) as [st'|]; [|done]. apply IH.
Qed.

End Minibatches.

Lemma count_in_seq (start len i : nat) :
  length (filter (λ j, j = i) (seq start len))
  = if decide (start ≤ i < start + len)%nat then 1%nat else 0%nat.
Proof.
  revert start; induction len as [|len IH]; intros start.
  - cbn. case_decide; [lia|done].
  - cbn [seq]. rewrite filter_cons.
    destruct (decide (start = i)); cbn [length]; rewrite IH;
      repeat case_decide; lia.
Qed.

Lemma count_in_replicate (n : nat) (ids : list nat) (i : nat) :
  length (filter (λ j, j = i) (concat (replicate n ids)))
  = (n * length (filter (λ j, j = i) ids))%nat.
Proof.
  induction n as [|n IH]; [done|].
  cbn [replicate concat]. rewrite filter_app, length_app, IH. lia.
Qed.

Lemma train_calls_S (minibatch_size epochs : nat) :
  train_calls minibatch_size (S epochs)
  = train_calls minibatch_size epochs
    ++ replicate minibatch_size (PPO.epoch_ids minibatch_size epochs).
Proof.
  unfold train_calls. rewrite seq_S, map_app, concat_app. cbn.
  by rewrite app_nil_r.
Qed.

(** Over the whole epoch loop a sample below [epochs * minibatch_size] goes
    through [minibatch_size] calls, all of them in the one epoch whose
    slice holds it, and a sample at or above that bound through none. *)
Lemma consumed_count (minibatch_size epochs i : nat) :
  consumed minibatch_size epochs i
  = if decide (i < epochs * minibatch_size)%nat
    then minibatch_size else 0%nat.
Proof.
  unfold consumed. induction epochs as [|n IH].
  - cbn. case_decide; [lia|done].
  - rewrite train_calls_S, concat_app, filter_app, length_app, IH.
    rewrite count_in_replicate. unfold PPO.epoch_ids, arange.
    rewrite count_in_seq.
    replace (n * minibatch_size + minibatch_size - n * minibatch_size)%nat
      with minibatch_size by lia.
    repeat case_decide; lia.
Qed.

(** ** The rollout *)

Lemma for_each_invariant {St} (P : St → Prop) (body : nat → St → option St)
    (range : list nat) (s s' : St) :
  (∀ i x y, body i x = Some y → P x → P y) →
  for_each body range s = Some s' → P s → P s'.
Proof.
  intros Hbody. revert s. induction range as [|i range IH]; intros s H Hs.
  - by injection H as <-.
  - cbn in H. destruct (body i s) as [x|] eqn:Hx; [|done].
    cbn in H. eapply IH; [exact H|]. by eapply Hbody.
Qed.

Lemma assign_row_Some {A} (t : nat) (row : A) (a a' : list A) :
  assign_row t row a = Some a' → (t < length a)%nat ∧ a' = <[t := row]> a.
Proof. unfold assign_row. case_decide; [|done]. by intros [= <-]. Qed.

Section Rollout.
Context {Obs : Type} {N : Networks Obs} {Smp : Sampler} {E : VectorEnv Obs}.

(** What one timestep does: the action is computed from the observation
    held on entry, which is written to row [t] of [obss]; the environment's
    answer fills row [t] of the other fields and becomes the observation
    held on exit.  Nothing else changes. *)
Lemma timestep_inv (self : PPO.Agent Obs) (t : nat) (w w' : PPO.World Obs) :
  PPO.timestep self t w = Some w' →
  ∃ actions probs,
    PPO.get_action self (PPO.observation w) None (PPO.rng w)
    = Some ((actions, probs), PPO.rng w')
    ∧ (t < length (Mem.obss (PPO.m w)))%nat
    ∧ PPO.envs w' = (env_step (PPO.envs w) actions).1
    ∧ PPO.observation w'
      = step_observation (env_step (PPO.envs w) actions).2
    ∧ Mem.obss (PPO.m w') = <[t := PPO.observation w]> (Mem.obss (PPO.m w))
    ∧ Mem.actions (PPO.m w') = <[t := actions]> (Mem.actions (PPO.m w))
    ∧ Mem.probs (PPO.m w') = <[t := probs]> (Mem.probs (PPO.m w))
    ∧ Mem.rewards (PPO.m w')
      = <[t := step_reward (env_step (PPO.envs w) actions).2]>
          (Mem.rewards (PPO.m w))
    ∧ Mem.terminateds (PPO.m w')
      = <[t := step_terminated (env_step (PPO.envs w) actions).2]>
          (Mem.terminateds (PPO.m w))
    ∧ Mem.truncateds (PPO.m w')
      = <[t := step_truncated (env_step (PPO.envs w) actions).2]>
          (Mem.truncateds (PPO.m w))
    ∧ Mem.values (PPO.m w') = Mem.values (PPO.m w)
    ∧ Mem.num_envs (PPO.m w') = Mem.num_envs (PPO.m w)
    ∧ (t < length (Mem.actions (PPO.m w)))%nat
    ∧ (t < length (Mem.probs (PPO.m w)))%nat.
Proof.
  unfold PPO.timestep. intros H.
  destruct (assign_row t (PPO.observation w) _) as [obss1|] eqn:Ho; [|done].
  apply assign_row_Some in Ho as [Hlt ->]. cbn [mbind option_bind] in H.
  destruct (PPO.get_action self _ None _) as [[[actions probs] g']|] eqn:Hg;
    [|done].
  cbn [mbind option_bind] in H.
  destruct (env_step (PPO.envs w) actions) as [envs' r] eqn:He.
  destruct (assign_row t actions _) as [a1|] eqn:H1; [|done].
  apply assign_row_Some in H1 as [Hl1 ->]. cbn [mbind option_bind] in H.
  destruct (assign_row t probs _) as [a2|] eqn:H2; [|done].
  apply assign_row_Some in H2 as [Hl2 ->]. cbn [mbind option_bind] in H.
  destruct (assign_row t (step_reward r) _) as [a3|] eqn:H3; [|done].
  apply assign_row_Some in H3 as [_ ->]. cbn [mbind option_bind] in H.
  destruct (assign_row t (step_terminated r) _) as [a4|] eqn:H4; [|done].
  apply assign_row_Some in H4 as [_ ->]. cbn [mbind option_bind] in H.
  destruct (assign_row t (step_truncated r) _) as [a5|] eqn:H5; [|done].
  apply assign_row_Some in H5 as [_ ->]. cbn [mbind option_bind] in H.
  injection H as <-. exists actions, probs. cbn. by rewrite He.
Qed.

(** No timestep writes the [values] field. *)
Lemma for_each_timestep_values (self : PPO.Agent Obs) range
    (w w' : PPO.World Obs) :
  for_each (PPO.timestep self) range w = Some w' →
  Mem.values (PPO.m w') = Mem.values (PPO.m w).
Proof.
  intros H.
  eapply (for_each_invariant
            (λ x, Mem.values (PPO.m x) = Mem.values (PPO.m w)));
    [|exact H|done].
  intros i x y Hxy Hx.
  destruct (timestep_inv self i x y Hxy)
    as (a & p & _ & _ & _ & _ & _ & _ & _ & _ & _ & _ & Hv & _).
  by rewrite Hv.
Qed.

Lemma rollout_values (self : PPO.Agent Obs) T (w w' : PPO.World Obs) :
  PPO.rollout self T w = Some w' →
  Mem.values (PPO.m w') = Mem.values (PPO.m w).
Proof.
  unfold PPO.rollout. intros H.
  destruct (for_each _ _ w) as [w1|] eqn:Hloop; [|done].
  cbn [mbind option_bind] in H.
  destruct (last (seq 0 T)) as [t|]; [|done]. cbn [mbind option_bind] in H.
  destruct (assign_row t _ _) as [obss1|]; [|done].
  injection H as <-. cbn. by apply for_each_timestep_values in Hloop.
Qed.

Lemma mapM_seq_lookup {B} (f : nat → option B) (n i : nat) (l : list B) y :
  mapM f (seq 0 n) = Some l → l !! i = Some y → f i = Some y.
Proof.
  intros Hl Hy. apply mapM_Some in Hl.
  destruct (Forall2_lookup_r _ _ _ i y Hl Hy) as (x & Hx & Hfx).
  apply lookup_seq in Hx as [-> _]. done.
Qed.

(** The advantage phase reads the buffer and writes only [advantages] and
    [returns]; every row of [advantages] is [calc_adv_list] on the columns
    of the buffer as it stands, the [values] column included. *)
Lemma estimate_inv (self : PPO.Agent Obs) T (w w' : PPO.World Obs) :
  PPO.estimate self T w = Some w' →
  PPO.envs w' = PPO.envs w ∧ PPO.rng w' = PPO.rng w
  ∧ PPO.observation w' = PPO.observation w
  ∧ Mem.values (PPO.m w') = Mem.values (PPO.m w)
  ∧ Mem.obss (PPO.m w') = Mem.obss (PPO.m w)
  ∧ Mem.actions (PPO.m w') = Mem.actions (PPO.m w)
  ∧ Mem.probs (PPO.m w') = Mem.probs (PPO.m w)
  ∧ ∀ e advs, Mem.advantages (PPO.m w') !! e = Some advs →
      ∃ rew val term trunc nv,
        column e (Mem.rewards (PPO.m w)) = Some rew
        ∧ column e (Mem.values (PPO.m w)) = Some val
        ∧ column e (Mem.terminateds (PPO.m w)) = Some term
        ∧ column e (Mem.truncateds (PPO.m w)) = Some trunc
        ∧ Tf.index (Tf.squeeze (PPO.get_value self (PPO.observation w))) e
          = Some nv
        ∧ Utils.calc_adv_list (T - 1) 0 rew val (PPO._gamma self)
            (PPO._lmbda self) term trunc nv = Some advs.
Proof.
  unfold PPO.estimate. intros H.
  destruct (mapM _ (seq 0 (Mem.num_envs (PPO.m w)))) as [advantages|] eqn:Ha;
    [|done].
  cbn [mbind option_bind] in H.
  destruct (mapM _ (seq 0 _)) as [returns|] eqn:Hr in H; [|done].
  injection H as <-. cbn. repeat (split; [done|]).
  intros e advs He. apply (mapM_seq_lookup _ _ _ _ _ Ha) in He.
  destruct (column e (Mem.rewards _)) as [rew|]; [|done].
  destruct (column e (Mem.values _)) as [val|]; [|done].
  destruct (column e (Mem.terminateds _)) as [term|]; [|done].
  destruct (column e (Mem.truncateds _)) as [trunc|]; [|done].
  cbn [mbind option_bind] in He.
  destruct (Tf.index _ e) as [nv|]; [|done].
  by exists rew, val, term, trunc, nv.
Qed.

(** [flatten] leaves every field that is not an [f_*] field as it is. *)
Lemma flatten_inv (mem mem' : Mem.Memory Obs) :
  Mem.flatten mem = Some mem' →
  Mem.values mem' = Mem.values mem
  ∧ Mem.advantages mem' = Mem.advantages mem
  ∧ Mem.obss mem' = Mem.obss mem
  ∧ Mem.f_obss mem' = concat (Mem.obss mem)
  ∧ Mem.f_actions mem' = concat (Mem.actions mem)
  ∧ Mem.f_probs mem' = concat (Mem.probs mem)
  ∧ Mem.time_major (length (Mem.obss mem)) (Mem.advantages mem)
    = Some (Mem.f_advantages mem')
  ∧ Mem.time_major (length (Mem.obss mem)) (Mem.returns mem)
    = Some (Mem.f_returns mem').
Proof.
  unfold Mem.flatten. intros H.
  destruct (Mem.time_major _ (Mem.advantages mem)) as [adv|]; [|done].
  destruct (Mem.time_major _ (Mem.returns mem)) as [ret|]; [|done].
  by injection H as <-.
Qed.

(** No phase of an update cycle writes the [values] field. *)
Lemma update_values (single_batch_ts minibatch_size epochs : nat)
    (self self' : PPO.Agent Obs) (w w' : PPO.World Obs) (losses : Q * Q) :
  PPO.update single_batch_ts minibatch_size epochs self w
  = Some (self', w', losses) →
  Mem.values (PPO.m w') = Mem.values (PPO.m w).
Proof.
  unfold PPO.update. intros H.
  destruct (PPO.rollout self single_batch_ts w) as [w1|] eqn:Hroll; [|done].
  cbn [mbind option_bind] in H.
  destruct (PPO.estimate self single_batch_ts w1) as [w2|] eqn:Hest; [|done].
  cbn [mbind option_bind] in H.
  destruct (Mem.flatten (PPO.m w2)) as [mem|] eqn:Hflat; [|done].
  cbn [mbind option_bind] in H.
  destruct (PPO.optimize mem _ _ _ _) as [fit|]; [|done].
  injection H as _ <- _. cbn [PPO.m].
  destruct (estimate_inv _ _ _ _ Hest) as (_ & _ & _ & Hv2 & _).
  destruct (flatten_inv _ _ Hflat) as (Hv3 & _).
  rewrite Hv3, Hv2. by apply rollout_values in Hroll.
Qed.

(** C9.  In a completed update cycle the [values] field of the buffer is,
    after the rollout and at the end of the cycle, what it was before the
    rollout; every row of advantages is [calc_adv_list] applied to the
    column of those same pre-rollout values (with the rewards and flags
    the rollout recorded). *)
Theorem update_never_writes_values (single_batch_ts minibatch_size epochs : nat)
    (self self' : PPO.Agent Obs) (w w' : PPO.World Obs) (losses : Q * Q) :
  PPO.update single_batch_ts minibatch_size epochs self w
  = Some (self', w', losses) →
  Mem.values (PPO.m w') = Mem.values (PPO.m w)
  ∧ ∃ w1, PPO.rollout self single_batch_ts w = Some w1
      ∧ Mem.values (PPO.m w1) = Mem.values (PPO.m w)
      ∧ ∀ e advs, Mem.advantages (PPO.m w') !! e = Some advs →
          ∃ rew val term trunc nv,
            column e (Mem.values (PPO.m w)) = Some val
            ∧ column e (Mem.rewards (PPO.m w1)) = Some rew
            ∧ column e (Mem.terminateds (PPO.m w1)) = Some term
            ∧ column e (Mem.truncateds (PPO.m w1)) = Some trunc
            ∧ Tf.index
                (Tf.squeeze (PPO.get_value self (PPO.observation w1))) e
              = Some nv
            ∧ Utils.calc_adv_list (single_batch_ts - 1) 0 rew val
                (PPO._gamma self) (PPO._lmbda self) term trunc nv
              = Some advs.
Proof.
  unfold PPO.update. intros H.
  destruct (PPO.rollout self single_batch_ts w) as [w1|] eqn:Hroll; [|done].
  cbn [mbind option_bind] in H.
  destruct (PPO.estimate self single_batch_ts w1) as [w2|] eqn:Hest; [|done].
  cbn [mbind option_bind] in H.
  destruct (Mem.flatten (PPO.m w2)) as [mem|] eqn:Hflat; [|done].
  cbn [mbind option_bind] in H.
  destruct (PPO.optimize mem _ _ _ _) as [fit|]; [|done].
  injection H as _ <- _. cbn [PPO.m].
  pose proof (rollout_values _ _ _ _ Hroll) as Hv1.
  destruct (estimate_inv _ _ _ _ Hest) as (_ & _ & _ & Hv2 & _ & _ & _ & Hadv).
  destruct (flatten_inv _ _ Hflat) as (Hv3 & Ha3 & _).
  split; [by rewrite Hv3, Hv2|].
  exists w1. split; [done|]. split; [done|].
  intros e advs He. rewrite Ha3 in He.
  destruct (Hadv e advs He) as (rew & val & term & trunc & nv & ? & Hval
                                & ? & ? & ? & ?).
  rewrite Hv1 in Hval. by exists rew, val, term, trunc, nv.
Qed.

End Rollout.

(** ** Pairing of observations with actions *)

Section Pairing.
Context {Obs : Type} {N : Networks Obs} {Smp : Sampler} {E : VectorEnv Obs}.

(** After the timestep loop over [s, s + n): row [s + j] of [obss] is the
    observation seen at the loop's [j]-th step, and rows [s + j] of
    [actions] and [probs] are what [get_action] returned on it. *)
Lemma for_each_timestep_rows (self : PPO.Agent Obs) (n s : nat)
    (w w1 : PPO.World Obs) :
  for_each (PPO.timestep self) (seq s n) w = Some w1 →
  ∃ seen,
    observations_seen self (seq s n) w = Some seen ∧ length seen = n
    ∧ (∀ j, (j < n)%nat →
         ∃ o a p g g',
           seen !! j = Some o
           ∧ Mem.obss (PPO.m w1) !! (s + j)%nat = Some o
           ∧ Mem.actions (PPO.m w1) !! (s + j)%nat = Some a
           ∧ Mem.probs (PPO.m w1) !! (s + j)%nat = Some p
           ∧ PPO.get_action self o None g = Some ((a, p), g'))
    ∧ (∀ i, (i < s)%nat →
         Mem.obss (PPO.m w1) !! i = Mem.obss (PPO.m w) !! i
         ∧ Mem.actions (PPO.m w1) !! i = Mem.actions (PPO.m w) !! i
         ∧ Mem.probs (PPO.m w1) !! i = Mem.probs (PPO.m w) !! i)
    ∧ length (Mem.obss (PPO.m w1)) = length (Mem.obss (PPO.m w))
    ∧ length (Mem.actions (PPO.m w1)) = length (Mem.actions (PPO.m w))
    ∧ length (Mem.probs (PPO.m w1)) = length (Mem.probs (PPO.m w)).
Proof.
  revert s w. induction n as [|n IH]; intros s w H.
  - injection H as <-. exists []. repeat split; try done. intros j Hj. lia.
  - cbn [seq for_each] in H.
    destruct (PPO.timestep self s w) as [w2|] eqn:Hstep; [|done].
    cbn [mbind option_bind] in H.
    destruct (IH (S s) w2 H)
      as (seen & Hseen & Hlen & Hrows & Hframe & Hlo & Hla & Hlp).
    destruct (timestep_inv self s w w2 Hstep)
      as (a & p & Hget & Hso & _ & _ & Ho & Ha & Hp & _ & _ & _ & _ & _
          & Hsa & Hsp).
    exists (PPO.observation w :: seen). cbn [observations_seen seq].
    rewrite Hstep. cbn [mbind option_bind]. rewrite Hseen.
    cbn [mbind option_bind length].
    rewrite Hlo, Hla, Hlp, Ho, Ha, Hp, !length_insert.
    split; [done|]. split; [by rewrite Hlen|]. split; [|split; [|done]].
    + intros [|j] Hj.
      * destruct (Hframe s ltac:(lia)) as (Eo & Ea & Ep).
        exists (PPO.observation w), a, p, (PPO.rng w), (PPO.rng w2).
        rewrite Nat.add_0_r, Eo, Ea, Ep, Ho, Ha, Hp.
        rewrite !list_lookup_insert_eq by done. done.
      * destruct (Hrows j ltac:(lia)) as (o & a' & p' & g & g' & ?).
        exists o, a', p', g, g'.
        replace (s + S j)%nat with (S s + j)%nat by lia. done.
    + intros i Hi. destruct (Hframe i ltac:(lia)) as (Eo & Ea & Ep).
      rewrite Eo, Ea, Ep, Ho, Ha, Hp.
      rewrite !list_lookup_insert_ne by lia. done.
Qed.

(** X3.  After the rollout, every row of [obss] but the last holds the
    observation its actions were computed on; the last row holds the
    observation returned by the last environment step, which is the
    observation the world holds on exit. *)
Lemma rollout_rows (self : PPO.Agent Obs) (T : nat) (w w' : PPO.World Obs) :
  PPO.rollout self T w = Some w' →
  ∃ seen,
    observations_seen self (seq 0 T) w = Some seen ∧ length seen = T
    ∧ (∀ t, (t < T)%nat →
         ∃ o a p g g',
           seen !! t = Some o
           ∧ Mem.actions (PPO.m w') !! t = Some a
           ∧ Mem.probs (PPO.m w') !! t = Some p
           ∧ PPO.get_action self o None g = Some ((a, p), g')
           ∧ (S t < T → Mem.obss (PPO.m w') !! t = Some o)%nat)
    ∧ Mem.obss (PPO.m w') !! (T - 1)%nat = Some (PPO.observation w').
Proof.
  unfold PPO.rollout. intros H.
  destruct (for_each _ _ w) as [w1|] eqn:Hloop; [|done].
  cbn [mbind option_bind] in H.
  destruct (last (seq 0 T)) as [t|] eqn:Hlast; [|done].
  cbn [mbind option_bind] in H.
  destruct (assign_row t _ _) as [obss1|] eqn:Hassign; [|done].
  apply assign_row_Some in Hassign as [Ht ->].
  injection H as <-. cbn [PPO.m PPO.observation].
  assert (t = T - 1)%nat as ->.
  { destruct T as [|T]; [done|]. rewrite seq_S, last_snoc in Hlast.
    injection Hlast as <-. lia. }
  destruct (for_each_timestep_rows self T 0 w w1 Hloop)
    as (seen & Hseen & Hlen & Hrows & _).
  exists seen. split; [done|]. split; [done|]. split.
  - intros t Ht'. destruct (Hrows t Ht') as (o & a & p & g & g' & Ho & Hob
                                              & Ha & Hp & Hget).
    exists o, a, p, g, g'. cbn. repeat (split; [done|]).
    intros Hnl. rewrite list_lookup_insert_ne by lia. done.
  - cbn. by rewrite list_lookup_insert_eq.
Qed.

End Pairing.

(** ** One update cycle on the concrete world *)

(** C1.  A cycle with [single_batch_ts = 4] over two environments (eight
    flattened samples), [minibatch_size = 2] and [epochs = 2] runs to its
    end.  Its epoch loop makes four calls of [train_step_ppo]: the slice
    [0, 1] twice in epoch 0 and the slice [2, 3] twice in epoch 1.  No epoch
    goes through the whole buffer, every slice is consumed twice within its
    epoch, and samples 4 to 7 are never consumed. *)
Theorem optimize_repeats_epoch_slice :
  let self := Toy.agent (1 # 5) in
  let w := Toy.world 4 0 in
  ∃ self' w' losses,
    PPO.update 4 2 2 self w = Some (self', w', losses)
    ∧ length (Mem.f_obss (PPO.m w')) = 8%nat
    ∧ train_calls 2 2 = [[0; 1]; [0; 1]; [2; 3]; [2; 3]]%nat
    ∧ (∀ fit : @PPO.Fit Z Toy.networks,
         PPO.optimize (PPO.m w') (PPO.rng w') 2 2 fit
         = train_all (PPO.m w') (PPO.rng w')
             [[0; 1]; [0; 1]; [2; 3]; [2; 3]]%nat fit)
    ∧ map (consumed 2 2) (seq 0 8) = [2; 2; 2; 2; 0; 0; 0; 0]%nat.
Proof.
  intros self w. eexists _, _, _.
  split; [vm_compute; reflexivity|].
  split; [reflexivity|]. split; [reflexivity|].
  split; [|reflexivity].
  intros fit. apply optimize_calls.
Qed.

(** C2.  A cycle with [single_batch_ts = 3] over two environments whose
    observations count the steps.  The actions of the three timesteps were
    computed on the observations (0, 100), (1, 101), (2, 102).  After
    flattening, indices 4 and 5 (the last timestep) of the observation field
    hold 3 and 103, the observation that follows the rollout, while the
    actions and probabilities at those indices are those computed on
    (2, 102). *)
Theorem rollout_overwrites_last_observation :
  let self := Toy.agent (1 # 5) in
  let w := Toy.world 3 0 in
  ∃ self' w' losses seen p,
    PPO.update 3 2 1 self w = Some (self', w', losses)
    ∧ observations_seen self (seq 0 3) w = Some seen
    ∧ concat seen = [0; 100; 1; 101; 2; 102]%Z
    ∧ Mem.f_obss (PPO.m w') = [0; 100; 1; 101; 3; 103]%Z
    ∧ PPO.observation w' = [3; 103]%Z
    ∧ PPO.get_action self [2; 102]%Z None (Toy.seed 2)
      = Some (([0; 0]%Z, p), Toy.seed 3)
    ∧ drop 4 (Mem.f_actions (PPO.m w')) = [0; 0]%Z
    ∧ drop 4 (Mem.f_probs (PPO.m w')) = p
    ∧ drop 4 (Mem.f_obss (PPO.m w')) ≠ drop 4 (concat seen).
Proof.
  intros self w. eexists _, _, _, _, _.
  split; [vm_compute; reflexivity|].
  split; [vm_compute; reflexivity|].
  split; [reflexivity|]. split; [reflexivity|]. split; [reflexivity|].
  split; [vm_compute; reflexivity|].
  split; [reflexivity|]. split; [reflexivity|].
  cbn. discriminate.
Qed.

Lemma update_never_writes_values_witness :
  let w := Toy.world 3 (1 # 3) in
  ∃ self' w' losses,
    PPO.update 3 2 1 (Toy.agent (1 # 5)) w = Some (self', w', losses)
    ∧ Mem.values (PPO.m w') = Mem.values (PPO.m w)
    ∧ Mem.values (PPO.m w) = [[1 # 3; 1 # 3]; [1 # 3; 1 # 3]; [1 # 3; 1 # 3]].
Proof.
  intros w. eexists _, _, _. split; [vm_compute; reflexivity|].
  split; [|reflexivity].
  eapply (λ H, proj1 (update_never_writes_values 3 2 1 (Toy.agent (1 # 5))
                        _ w _ _ H)).
  vm_compute; reflexivity.
Defined.

(** ** The whole run and the flattened layout *)

Section Whole_run.
Context {Obs : Type} {N : Networks Obs} {Smp : Sampler} {E : VectorEnv Obs}.

Lemma updates_loop_values (updates : nat)
    (single_batch_ts minibatch_size epochs : nat)
    (self self' : PPO.Agent Obs) (w w' : PPO.World Obs) la lc l :
  PPO.updates_loop updates single_batch_ts minibatch_size epochs self w la lc
    = Some (self', w', l) →
  Mem.values (PPO.m w') = Mem.values (PPO.m w).
Proof.
  revert self w la lc.
  induction updates as [|k IH]; intros self w la lc H.
  - by injection H as _ <- _.
  - cbn [PPO.updates_loop] in H.
    destruct (PPO.update _ _ _ self w) as [[[self1 w1] [a c]]|] eqn:Hupd;
      [|done].
    cbn [mbind option_bind] in H. apply IH in H. rewrite H.
    by apply update_values in Hupd.
Qed.

(** Over all the update cycles of a completed [play_n_timesteps] the
    [values] field stays what the caller's buffer held. *)
Lemma play_n_timesteps_values (self self' : PPO.Agent Obs) envs0 g mem
    (t_timesteps single_batch_ts minibatch_size epochs : nat)
    (w' : PPO.World Obs) l :
  PPO.play_n_timesteps self envs0 g mem t_timesteps single_batch_ts
    minibatch_size epochs = Some (self', w', l) →
  Mem.values (PPO.m w') = Mem.values mem.
Proof.
  unfold PPO.play_n_timesteps. case_decide; [done|].
  destruct (env_reset envs0) as [envs1 observation0].
  intros Hrun. by apply updates_loop_values in Hrun.
Qed.

End Whole_run.

Lemma concat_cell {A} (T n t e : nat) (a : list (list A)) :
  shaped T n a → (e < n)%nat → concat a !! (t * n + e)%nat = cell a t e.
Proof.
  intros [<- Hrows] He. revert t.
  induction a as [|row a IH]; intros t.
  - unfold cell. by rewrite !lookup_nil.
  - apply Forall_cons in Hrows as [Hrow Hrows]. cbn [concat].
    destruct t as [|t].
    + rewrite lookup_app_l by lia. done.
    + rewrite lookup_app_r by lia.
      replace (S t * n + e - length row)%nat with (t * n + e)%nat by lia.
      by rewrite IH.
Qed.

(** The flattened fields are indexed by [t * num_envs + e]: those stored
    [time][environment] row after row, and the advantages and returns,
    stored [environment][time], read column after column. *)
Lemma flatten_aligned {Obs} (T n : nat) (mem mem' : Mem.Memory Obs) :
  Mem.flatten mem = Some mem' →
  shaped T n (Mem.obss mem) → shaped T n (Mem.actions mem) →
  shaped T n (Mem.probs mem) →
  shaped n T (Mem.advantages mem) → shaped n T (Mem.returns mem) →
  ∀ t e, (t < T)%nat → (e < n)%nat →
    Mem.f_obss mem' !! (t * n + e)%nat = cell (Mem.obss mem) t e
    ∧ Mem.f_actions mem' !! (t * n + e)%nat = cell (Mem.actions mem) t e
    ∧ Mem.f_probs mem' !! (t * n + e)%nat = cell (Mem.probs mem) t e
    ∧ Mem.f_advantages mem' !! (t * n + e)%nat
      = cell (Mem.advantages mem) e t
    ∧ Mem.f_returns mem' !! (t * n + e)%nat = cell (Mem.returns mem) e t.
Proof.
  intros Hflat Hobs Hact Hprob Hadv Hret t e Ht He.
  destruct (flatten_inv _ _ Hflat)
    as (_ & _ & _ & -> & -> & -> & Hfa & Hfr).
  rewrite !(concat_cell T n) by done. repeat (split; [done|]).
  assert (∀ (a : list (list Q)) l,
            shaped n T a → Mem.time_major T a = Some l →
            l !! (t * n + e)%nat = cell a e t) as Htm.
  { intros a l Ha Hl. unfold Mem.time_major in Hl.
    destruct (mapM _ (seq 0 T)) as [cols|] eqn:Hcols; [|done].
    injection Hl as <-.
    destruct (column_shaped n T t a Ha Ht) as (col & Hcol & Hlen & Hlook).
    assert (shaped T n cols) as Hsh.
    { split.
      - apply length_mapM in Hcols. by rewrite length_seq in Hcols.
      - apply Forall_lookup. intros i c Hc.
        pose proof (mapM_seq_lookup _ _ _ _ _ Hcols Hc) as Hci.
        pose proof (lookup_lt_Some _ _ _ Hc) as Hi.
        apply length_mapM in Hcols. rewrite length_seq in Hcols.
        destruct (column_shaped n T i a Ha ltac:(lia)) as (c' & Hc' & ? & _).
        rewrite Hci in Hc'. by injection Hc' as <-. }
    rewrite (concat_cell T n) by done.
    assert (cols !! t = Some col) as Hct.
    { destruct (lookup_lt_is_Some_2 cols t) as [c Hc];
        [by rewrite (proj1 Hsh)|].
      rewrite Hc. rewrite <- Hcol. symmetry.
      by apply (mapM_seq_lookup _ _ _ _ _ Hcols). }
    unfold cell at 1. rewrite Hct. cbn. apply Hlook. }
  destruct Hobs as [HT _]. rewrite HT in Hfa, Hfr.
  split; by apply Htm.
Qed.

(** * Further properties of the code *)

(** ** The epoch loop of [play_n_timesteps] *)

Section Epoch_loop.
Context {Obs : Type} {N : Networks Obs} {Smp : Sampler}.

Lemma gather_Some_lt {A} (ids : list nat) (a l : list A) :
  gather ids a = Some l → Forall (λ i, (i < length a)%nat) ids.
Proof.
  unfold gather. intros H. apply mapM_Some in H.
  apply Forall_forall. intros i Hi.
  apply list_elem_of_lookup in Hi as [j Hj].
  destruct (Forall2_lookup_l _ _ _ j i H Hj) as (y & _ & Hy).
  by apply lookup_lt_Some in Hy.
Qed.

Lemma train_on_Some_lt mem g ids (st st' : PPO.Fit Obs) :
  PPO.train_on mem g ids st = Some st' →
  Forall (λ i, (i < flat_length mem)%nat) ids.
Proof.
  unfold PPO.train_on. intros H.
  destruct (gather ids (Mem.f_obss mem)) eqn:H1; [|done].
  destruct (gather ids (Mem.f_actions mem)) eqn:H2; [|done].
  destruct (gather ids (Mem.f_advantages mem)) eqn:H3; [|done].
  destruct (gather ids (Mem.f_probs mem)) eqn:H4; [|done].
  destruct (gather ids (Mem.f_returns mem)) eqn:H5; [|done].
  apply gather_Some_lt in H1, H2, H3, H4, H5.
  rewrite Forall_forall in *. intros i Hi. unfold flat_length.
  specialize (H1 i Hi). specialize (H2 i Hi). specialize (H3 i Hi).
  specialize (H4 i Hi). specialize (H5 i Hi). lia.
Qed.

Lemma train_all_Some_lt mem g calls (st st' : PPO.Fit Obs) :
  train_all mem g calls st = Some st' →
  Forall (Forall (λ i, (i < flat_length mem)%nat)) calls.
Proof.
  revert st. induction calls as [|ids calls IH]; intros st H; [constructor|].
  cbn in H. destruct (PPO.train_on mem g ids st) as [st1|] eqn:H1; [|done].
  constructor; [by eapply train_on_Some_lt|by eapply IH].
Qed.

(** X1.  The epoch loop calls [train_step_ppo] exactly on the index arrays
    of [train_calls], [epochs * minibatch_size] calls in all: sample [i] of
    the flattened buffer goes through [minibatch_size] of them when
    [i < epochs * minibatch_size] and through none otherwise. *)
Theorem optimize_consumption mem g (minibatch_size epochs : nat)
    (st : PPO.Fit Obs) :
  PPO.optimize mem g minibatch_size epochs st
  = train_all mem g (train_calls minibatch_size epochs) st
  ∧ length (train_calls minibatch_size epochs)
    = (epochs * minibatch_size)%nat
  ∧ ∀ i, consumed minibatch_size epochs i
         = if decide (i < epochs * minibatch_size)%nat
           then minibatch_size else 0%nat.
Proof.
  split; [apply optimize_calls|]. split; [|apply consumed_count].
  induction epochs as [|n IH]; [done|].
  rewrite train_calls_S, length_app, IH, length_replicate. lia.
Qed.

(** X2.  The epoch loop indexes the flattened buffer up to
    [epochs * minibatch_size - 1]: when a flattened field is shorter than
    [epochs * minibatch_size] (and [minibatch_size > 0]) the loop ends in
    an index error instead of returning. *)
Theorem optimize_index_error mem g (minibatch_size epochs : nat)
    (st : PPO.Fit Obs) :
  (0 < minibatch_size)%nat →
  (flat_length mem < epochs * minibatch_size)%nat →
  PPO.optimize mem g minibatch_size epochs st = None.
Proof.
  intros Hmb Hshort. rewrite optimize_calls.
  destruct (train_all mem g _ st) as [st'|] eqn:Hrun; [|done].
  exfalso. apply train_all_Some_lt in Hrun.
  destruct epochs as [|n]; [lia|].
  rewrite train_calls_S, Forall_app in Hrun. destruct Hrun as [_ Hlast].
  destruct minibatch_size as [|k]; [lia|].
  cbn [replicate] in Hlast. apply Forall_cons in Hlast as [Hids _].
  unfold PPO.epoch_ids, arange in Hids.
  rewrite Forall_forall in Hids.
  specialize (Hids (n * S k + k)%nat). 
  assert (n * S k + k < flat_length mem)%nat; [|lia].
  apply Hids, elem_of_seq. lia.
Qed.

End Epoch_loop.

(** ** The rollout and the whole run *)

Section Run.
Context {Obs : Type} {N : Networks Obs} {Smp : Sampler} {E : VectorEnv Obs}.

Lemma timestep_observation_length (self : PPO.Agent Obs) t
    (w w' : PPO.World Obs) :
  PPO.timestep self t w = Some w' →
  length (PPO.observation w') = env_num_envs
  ∧ Mem.num_envs (PPO.m w') = Mem.num_envs (PPO.m w).
Proof.
  intros H. destruct (timestep_inv self t w w' H)
    as (a & p & _ & _ & _ & Hobs & _ & _ & _ & _ & _ & _ & _ & Hn & _).
  split; [|done]. rewrite Hobs.
  by destruct (env_step_lengths (PPO.envs w) a) as [? _].
Qed.

(** A rollout that completes leaves in [observation] one entry per
    environment instance and keeps the buffer's [num_envs]. *)
Lemma rollout_observation_length (self : PPO.Agent Obs) T
    (w w' : PPO.World Obs) :
  PPO.rollout self T w = Some w' →
  length (PPO.observation w') = env_num_envs
  ∧ Mem.num_envs (PPO.m w') = Mem.num_envs (PPO.m w).
Proof.
  unfold PPO.rollout. intros H.
  destruct (for_each _ _ w) as [w1|] eqn:Hloop; [|done].
  cbn [mbind option_bind] in H.
  destruct (last (seq 0 T)) as [t|] eqn:Hlast; [|done].
  cbn [mbind option_bind] in H.
  destruct (assign_row t _ _) as [obss1|]; [|done].
  injection H as <-. cbn.
  destruct T as [|T]; [done|]. cbn [seq for_each] in Hloop.
  destruct (PPO.timestep self 0 w) as [w0|] eqn:H0; [|done].
  cbn [mbind option_bind] in Hloop.
  destruct (timestep_observation_length _ _ _ _ H0) as [Hl0 Hn0].
  rewrite <- Hn0.
  apply (for_each_invariant
           (λ x, length (PPO.observation x) = env_num_envs
                 ∧ Mem.num_envs (PPO.m x) = Mem.num_envs (PPO.m w0))
           _ _ _ _) in Hloop; [done| |done].
  intros i x y Hxy [_ Hx].
  destruct (timestep_observation_length _ _ _ _ Hxy) as [? Hn].
  split; [done|]. by rewrite Hn.
Qed.

(** With a single observation the squeezed critic output has no axis
    left, and indexing it by the environment fails. *)
Lemma estimate_single_observation (self : PPO.Agent Obs) T
    (w : PPO.World Obs) :
  length (PPO.observation w) = 1%nat →
  (0 < Mem.num_envs (PPO.m w))%nat →
  PPO.estimate self T w = None.
Proof.
  intros Hobs Hn. unfold PPO.estimate, PPO.get_value.
  pose proof (critic_forward_length (PPO.critic self) (PPO.observation w))
    as Hc. rewrite Hobs in Hc.
  destruct (critic_forward _ _) as [|v [|v' vs]]; try discriminate.
  destruct (Mem.num_envs (PPO.m w)) as [|n]; [lia|].
  cbn [seq mapM Tf.column map Tf.squeeze Tf.index].
  destruct (column 0 (Mem.rewards _)); [|done].
  destruct (column 0 (Mem.values _)); [|done].
  destruct (column 0 (Mem.terminateds _)); [|done].
  destruct (column 0 (Mem.truncateds _)); done.
Qed.

(** X4.  With a vector environment of a single instance and a buffer of
    at least one environment column, [play_n_timesteps] never returns once
    it has an update to run: [next_val] is squeezed to a zero-dimensional
    array and [next_val[env_id]] raises. *)
Theorem play_n_timesteps_single_env (self : PPO.Agent Obs) envs0 g mem
    (t_timesteps single_batch_ts minibatch_size epochs : nat) :
  env_num_envs = 1%nat →
  (0 < Mem.num_envs mem)%nat →
  (0 < single_batch_ts ≤ t_timesteps)%nat →
  PPO.play_n_timesteps self envs0 g mem t_timesteps single_batch_ts
    minibatch_size epochs = None.
Proof.
  intros Hone Hn [HT Ht]. unfold PPO.play_n_timesteps.
  rewrite decide_False by lia.
  destruct (env_reset envs0) as [envs1 observation0].
  destruct (t_timesteps / single_batch_ts)%nat as [|k] eqn:Hdiv.
  { apply Nat.div_small_iff in Hdiv; lia. }
  cbn [PPO.updates_loop]. unfold PPO.update.
  destruct (PPO.rollout self single_batch_ts _) as [w1|] eqn:Hroll; [|done].
  cbn [mbind option_bind].
  destruct (rollout_observation_length _ _ _ _ Hroll) as [Hl Hm].
  rewrite estimate_single_observation; [done|lia|].
  rewrite Hm. exact Hn.
Qed.

(** X5.  A run of [play_n_timesteps] that returns gives two lists of mean
    losses with one entry per update, [t_timesteps // single_batch_ts]
    entries each. *)
Theorem play_n_timesteps_loss_lengths (self self' : PPO.Agent Obs) envs0 g
    mem (t_timesteps single_batch_ts minibatch_size epochs : nat)
    (w' : PPO.World Obs) (actor_l critic_l : list Q) :
  PPO.play_n_timesteps self envs0 g mem t_timesteps single_batch_ts
    minibatch_size epochs = Some (self', w', (actor_l, critic_l)) →
  length actor_l = (t_timesteps / single_batch_ts)%nat
  ∧ length critic_l = (t_timesteps / single_batch_ts)%nat.
Proof.
  unfold PPO.play_n_timesteps. case_decide; [done|].
  destruct (env_reset envs0) as [envs1 observation0].
  generalize (t_timesteps / single_batch_ts)%nat as updates.
  intros updates Hrun.
  assert (∀ k (s : PPO.Agent Obs) (w : PPO.World Obs) la lc,
            PPO.updates_loop k single_batch_ts minibatch_size epochs s w la lc
            = Some (self', w', (actor_l, critic_l)) →
            length actor_l = (length la + k)%nat
            ∧ length critic_l = (length lc + k)%nat) as Hloop.
  { induction k as [|k IH]; intros s w la lc Hk.
    - injection Hk as _ _ <- <-. lia.
    - cbn [PPO.updates_loop] in Hk.
      destruct (PPO.update _ _ _ s w) as [[[s1 w1] [a c]]|]; [|done].
      cbn [mbind option_bind] in Hk. apply IH in Hk.
      rewrite !length_app in Hk. cbn in Hk. lia. }
  apply Hloop in Hrun. cbn in Hrun. lia.
Qed.

Lemma train_step_ppo_hyperparameters (self self' : PPO.Agent Obs) obs actions
    adv probs returns g loss :
  PPO.train_step_ppo self obs actions adv probs returns g = Some (loss, self') →
  hyperparameters self' = hyperparameters self.
Proof.
  unfold PPO.train_step_ppo. intros H.
  destruct (PPO.loss_clip_of _ _ _ _ _ _ _); [|done].
  destruct (PPO.loss_value_of _ _ _); [|done].
  cbn [mbind option_bind] in H.
  destruct (apply_gradients_actor _ _ _), (apply_gradients_critic _ _ _).
  by injection H as _ <-.
Qed.

Lemma train_all_hyperparameters mem g calls (st st' : PPO.Fit Obs) :
  train_all mem g calls st = Some st' →
  hyperparameters (PPO.fit_agent st') = hyperparameters (PPO.fit_agent st).
Proof.
  revert st. induction calls as [|ids calls IH]; intros st H.
  - by injection H as <-.
  - cbn in H. destruct (PPO.train_on mem g ids st) as [st1|] eqn:H1; [|done].
    cbn in H. rewrite (IH _ H). clear H IH.
    unfold PPO.train_on in H1.
    destruct (gather ids (Mem.f_obss mem)); [|done].
    destruct (gather ids (Mem.f_actions mem)); [|done].
    destruct (gather ids (Mem.f_advantages mem)); [|done].
    destruct (gather ids (Mem.f_probs mem)); [|done].
    destruct (gather ids (Mem.f_returns mem)); [|done].
    cbn [mbind option_bind] in H1.
    destruct (PPO.train_step_ppo _ _ _ _ _ _ _) as [[[la lv] s1]|] eqn:Hs;
      [|done].
    injection H1 as <-. cbn. by eapply train_step_ppo_hyperparameters.
Qed.

Lemma update_hyperparameters (T minibatch_size epochs : nat)
    (self self' : PPO.Agent Obs) (w w' : PPO.World Obs) losses :
  PPO.update T minibatch_size epochs self w = Some (self', w', losses) →
  hyperparameters self' = hyperparameters self.
Proof.
  unfold PPO.update. intros H.
  destruct (PPO.rollout self T w) as [w1|]; [|done].
  cbn [mbind option_bind] in H.
  destruct (PPO.estimate self T w1) as [w2|]; [|done].
  cbn [mbind option_bind] in H.
  destruct (Mem.flatten (PPO.m w2)) as [mem|]; [|done].
  cbn [mbind option_bind] in H.
  destruct (PPO.optimize mem _ _ _ _) as [fit|] eqn:Hopt; [|done].
  injection H as <- _ _. rewrite optimize_calls in Hopt.
  by apply train_all_hyperparameters in Hopt.
Qed.

(** X6.  Training changes the two networks and their optimizers only: the
    agent returned by a completed [play_n_timesteps] has the [_gamma],
    [_lmbda], [epsilon], [lr] and [n_outputs] it started with. *)
Theorem play_n_timesteps_hyperparameters (self self' : PPO.Agent Obs) envs0
    g mem (t_timesteps single_batch_ts minibatch_size epochs : nat)
    (w' : PPO.World Obs) l :
  PPO.play_n_timesteps self envs0 g mem t_timesteps single_batch_ts
    minibatch_size epochs = Some (self', w', l) →
  hyperparameters self' = hyperparameters self.
Proof.
  unfold PPO.play_n_timesteps. case_decide; [done|].
  destruct (env_reset envs0) as [envs1 observation0].
  generalize (t_timesteps / single_batch_ts)%nat as updates.
  generalize (@nil Q) at 1 as la. generalize (@nil Q) as lc.
  generalize (PPO.mkWorld Obs E Smp envs1 g mem observation0) as w.
  intros w lc la updates. revert self w lc la.
  induction updates as [|k IH]; intros self w lc la Hrun.
  - by injection Hrun as <- _ _.
  - cbn [PPO.updates_loop] in Hrun.
    destruct (PPO.update _ _ _ self w) as [[[s1 w1] [a c]]|] eqn:Hupd;
      [|done].
    cbn [mbind option_bind] in Hrun. apply IH in Hrun. rewrite Hrun.
    by eapply update_hyperparameters.
Qed.

End Run.

(** *** The run on the concrete worlds *)

Lemma optimize_index_error_witness :
  PPO.optimize Toy.sample_memory (Toy.seed 0) 2 1
    (PPO.mkFit Z Toy.networks (Toy.agent (1 # 5)) [] []) = None.
Proof.
  apply (optimize_index_error Toy.sample_memory (Toy.seed 0) 2 1).
  - lia.
  - vm_compute; lia.
Defined.

Lemma rollout_rows_witness :
  let self := Toy.agent (1 # 5) in
  let w := Toy.world 3 0 in
  ∃ w', PPO.rollout self 3 w = Some w'
    ∧ ∃ seen,
        observations_seen self (seq 0 3) w = Some seen ∧ length seen = 3%nat
        ∧ (∀ t, (t < 3)%nat →
             ∃ (o a : list Z) (p : list Q) (g g' : @Rng Toy.sampler),
               seen !! t = Some o
               ∧ Mem.actions (PPO.m w') !! t = Some a
               ∧ Mem.probs (PPO.m w') !! t = Some p
               ∧ PPO.get_action self o None g = Some ((a, p), g')
               ∧ (S t < 3 → Mem.obss (PPO.m w') !! t = Some o)%nat)
        ∧ Mem.obss (PPO.m w') !! (3 - 1)%nat = Some (PPO.observation w').
Proof.
  intros self w. eexists. split; [vm_compute; reflexivity|].
  apply (rollout_rows self 3 w). vm_compute; reflexivity.
Defined.

Lemma play_n_timesteps_single_env_witness :
  @PPO.play_n_timesteps Z Toy.networks Toy.sampler Toy.vector_env_1
    (Toy.agent (1 # 5)) 0%Z (Toy.seed 0) (Toy.memory_1 3) 6 3 2 1 = None.
Proof.
  apply (@play_n_timesteps_single_env Z Toy.networks Toy.sampler
           Toy.vector_env_1).
  - reflexivity.
  - simpl; lia.
  - lia.
Defined.

Lemma play_n_timesteps_loss_lengths_witness :
  ∃ self' w' actor_l critic_l,
    @PPO.play_n_timesteps Z Toy.networks Toy.sampler Toy.vector_env
      (Toy.agent (1 # 5)) 0%Z (Toy.seed 0) (Toy.memory 3 0) 6 3 2 1
    = Some (self', w', (actor_l, critic_l))
    ∧ length actor_l = (6 / 3)%nat ∧ length critic_l = (6 / 3)%nat.
Proof.
  eexists _, _, _, _. split; [vm_compute; reflexivity|].
  eapply (@play_n_timesteps_loss_lengths Z Toy.networks Toy.sampler
            Toy.vector_env (Toy.agent (1 # 5)) _ 0%Z (Toy.seed 0)
            (Toy.memory 3 0) 6 3 2 1).
  vm_compute; reflexivity.
Defined.

Lemma play_n_timesteps_hyperparameters_witness :
  ∃ self' w' l,
    @PPO.play_n_timesteps Z Toy.networks Toy.sampler Toy.vector_env
      (Toy.agent (1 # 5)) 0%Z (Toy.seed 0) (Toy.memory 3 0) 3 3 2 1
    = Some (self', w', l)
    ∧ hyperparameters self' = hyperparameters (Toy.agent (1 # 5)).
Proof.
  eexists _, _, _. split; [vm_compute; reflexivity|].
  eapply (@play_n_timesteps_hyperparameters Z Toy.networks Toy.sampler
            Toy.vector_env (Toy.agent (1 # 5)) _ 0%Z (Toy.seed 0)
            (Toy.memory 3 0) 3 3 2 1).
  vm_compute; reflexivity.
Defined.

(** ** [train_step_ppo] on rank-one minibatches *)

Section Rank_one.
Context {Obs : Type} {N : Networks Obs} {Smp : Sampler}.


End Rank_one.



(** ** The greedy branch and [train] of [DQN_Agent] *)

Lemma argmax_from_spec (full l : list Q) (best : Q) (bi i : nat) :
  drop i full = l → full !! bi = Some best → (bi < i)%nat →
  (∀ j y, (j < i)%nat → full !! j = Some y → y <= best) →
  (∀ j y, (j < bi)%nat → full !! j = Some y → y < best) →
  ∃ m, full !! argmax_from best bi i l = Some m
       ∧ (∀ j y, full !! j = Some y → y <= m)
       ∧ (∀ j y, (j < argmax_from best bi i l)%nat →
                 full !! j = Some y → y < m).
Proof.
  revert best bi i. induction l as [|x l IH]; intros best bi i Hd Hb Hbi Hle Hlt.
  - exists best. cbn. split; [done|]. split; [|done].
    intros j y Hy. apply (Hle j y); [|done].
    pose proof (lookup_lt_Some _ _ _ Hy) as Hj.
    assert (length (drop i full) = 0%nat) as Hl by (by rewrite Hd).
    rewrite length_drop in Hl. lia.
  - assert (full !! i = Some x) as Hx.
    { pose proof (lookup_drop full i 0) as H0.
      rewrite Hd, Nat.add_0_r in H0. by rewrite <- H0. }
    assert (drop (S i) full = l) as Hd'.
    { rewrite (drop_S full x i Hx) in Hd. by injection Hd. }
    cbn [argmax_from]. destruct (Qlt_le_dec best x) as [Hbx|Hxb].
    + apply IH; [done|done|lia| |].
      * intros j y Hj Hy. destruct (decide (j = i)) as [->|Hne].
        -- rewrite Hx in Hy. injection Hy as <-. apply Qle_refl.
        -- apply Qlt_le_weak, (Qle_lt_trans _ best); [|done].
           apply (Hle j y); [lia|done].
      * intros j y Hj Hy. apply (Qle_lt_trans _ best); [|done].
        by apply (Hle j y).
    + apply IH; [done|done|lia| |done].
      intros j y Hj Hy. destruct (decide (j = i)) as [->|Hne].
      * rewrite Hx in Hy. by injection Hy as <-.
      * apply (Hle j y); [lia|done].
Qed.

(** [np.argmax] returns the first index of a largest entry. *)
Lemma np_argmax_spec (l : list Q) :
  l ≠ [] →
  ∃ a m, np_argmax l = Some (Z.of_nat a) ∧ l !! a = Some m
         ∧ (∀ j y, l !! j = Some y → y <= m)
         ∧ (∀ j y, (j < a)%nat → l !! j = Some y → y < m).
Proof.
  destruct l as [|x l]; [done|]. intros _.
  destruct (argmax_from_spec (x :: l) l x 0 1) as (m & Hm & Hle & Hlt);
    [done|done|lia| |intros; lia|].
  - intros [|j] y Hj Hy; [|lia]. injection Hy as <-. apply Qle_refl.
  - exists (argmax_from x 0 1 l), m. done.
Qed.

Section Greedy.
Context {State : Type} {QN : DQN.QNetwork State}.

(** X9.  When the draw [u] of [np.random.rand()] is not below [epsilon]
    (always so with the default [epsilon = 0]) and the network has at
    least one output, [epsilon_greedy_policy] returns, with certainty, the
    first index at which the Q-values of the state are largest. *)
Theorem epsilon_greedy_exploits (self : DQN.Agent State) (state : State)
    (epsilon u : Q) :
  epsilon <= u →
  DQN.predict (DQN.dqn_model self) state ≠ [] →
  let q_values := DQN.predict (DQN.dqn_model self) state in
  ∃ a m,
    DQN.epsilon_greedy_policy self state epsilon u
    = Some (dirac (Z.of_nat a))
    ∧ q_values !! a = Some m
    ∧ (∀ j y, q_values !! j = Some y → y <= m)
    ∧ (∀ j y, (j < a)%nat → q_values !! j = Some y → y < m).
Proof.
  intros Hu Hne q_values.
  destruct (np_argmax_spec q_values Hne) as (a & m & Ha & Hm & Hle & Hlt).
  exists a, m. split; [|done].
  unfold DQN.epsilon_greedy_policy.
  destruct (Qlt_le_dec u epsilon) as [Hlt'|_].
  - exfalso. by apply (Qlt_not_le u epsilon).
  - fold q_values. by rewrite Ha.
Qed.

End Greedy.

Lemma epsilon_greedy_exploits_witness :
  let q_values := DQN.predict (DQN.dqn_model Toy.dqn_agent) 7%Z in
  ∃ a m,
    DQN.epsilon_greedy_policy Toy.dqn_agent 7%Z 0 (1 # 2)
    = Some (dirac (Z.of_nat a))
    ∧ q_values !! a = Some m
    ∧ (∀ j y, q_values !! j = Some y → y <= m)
    ∧ (∀ j y, (j < a)%nat → q_values !! j = Some y → y < m).
Proof.
  apply (epsilon_greedy_exploits Toy.dqn_agent 7%Z 0 (1 # 2)).
  - unfold Qle; simpl; lia.
  - discriminate.
Defined.

Lemma Qmax_cases (x y : Q) : Qmax x y = x ∨ Qmax x y = y.
Proof.
  unfold Qmax, GenericMinMax.gmax. destruct (x ?= y); auto.
Qed.

Lemma foldl_Qmax_spec (l : list Q) (x : Q) :
  foldl Qmax x l ∈ x :: l ∧ ∀ y, y ∈ x :: l → y <= foldl Qmax x l.
Proof.
  revert x. induction l as [|z l IH]; intros x.
  - cbn. split; [by left|]. intros y Hy.
    apply list_elem_of_singleton in Hy as ->. apply Qle_refl.
  - cbn [foldl]. destruct (IH (Qmax x z)) as [Hin Hle]. split.
    + apply elem_of_cons in Hin as [Hm|Hin].
      * rewrite Hm. destruct (Qmax_cases x z) as [->| ->];
          [by left|by right; left].
      * by right; right.
    + intros y Hy. apply elem_of_cons in Hy as [->|Hy].
      * apply (Qle_trans _ (Qmax x z)); [apply Q.le_max_l|].
        apply Hle. by left.
      * apply elem_of_cons in Hy as [->|Hy].
        -- apply (Qle_trans _ (Qmax x z)); [apply Q.le_max_r|].
           apply Hle. by left.
        -- apply Hle. by right.
Qed.

(** [np.max] returns an entry of the array that no entry exceeds. *)
Lemma np_max_spec (l : list Q) :
  l ≠ [] → ∃ m, np_max l = Some m ∧ m ∈ l ∧ ∀ y, y ∈ l → y <= m.
Proof.
  destruct l as [|x l]; [done|]. intros _. eexists. split; [done|].
  apply foldl_Qmax_spec.
Qed.

Section Train_facts.
Context {State : Type} {QN : DQN.QNetwork State} {F : DQN.Fitting State}.

(** X10.  The targets that [train] regresses on: for a terminated
    transition the reward alone, otherwise the reward plus the discounted
    largest Q-value that the current network gives to the next state. *)
Theorem targets_of_spec (self : DQN.Agent State) (rewards : list Q)
    (next_states : list State) (terminateds : list bool) :
  next_states ≠ [] →
  length rewards = length next_states →
  length terminateds = length next_states →
  (∀ s, s ∈ next_states → DQN.predict (DQN.dqn_model self) s ≠ []) →
  ∃ targets,
    DQN.targets_of self rewards next_states terminateds = Some targets
    ∧ length targets = length next_states
    ∧ ∀ i r s (b : bool),
        rewards !! i = Some r → next_states !! i = Some s →
        terminateds !! i = Some b →
        ∃ y m : Q,
          targets !! i = Some y
          ∧ m ∈ DQN.predict (DQN.dqn_model self) s
          ∧ (∀ q, q ∈ DQN.predict (DQN.dqn_model self) s → q <= m)
          ∧ y == (if b then r else r + DQN._discount self * m).
Proof.
  intros Hne Hlr Hlt Hrows. unfold DQN.targets_of, DQN.predict_batch.
  destruct next_states as [|s0 ns0] eqn:Ens; [done|]. rewrite <- Ens in *.
  clear Hne. cbn [mbind option_bind].
  set (vars := DQN.dqn_model self) in *.
  assert (∃ maxes,
            mapM np_max (map (DQN.predict vars) next_states) = Some maxes
            ∧ length maxes = length next_states
            ∧ ∀ i s, next_states !! i = Some s →
                ∃ m, maxes !! i = Some m ∧ m ∈ DQN.predict vars s
                     ∧ ∀ q, q ∈ DQN.predict vars s → q <= m)
    as (maxes & -> & Hlm & Hmax).
  { clear Ens Hlr Hlt. induction next_states as [|s ns IH].
    - exists []. split; [done|]. split; [done|]. intros i s Hs.
      by rewrite lookup_nil in Hs.
    - destruct IH as (maxes & Hm & Hl & Hspec).
      { intros s' Hs'. apply Hrows. by right. }
      destruct (np_max_spec (DQN.predict vars s)) as (m & Hnm & Hin & Hle).
      { apply Hrows. by left. }
      exists (m :: maxes). cbn [map mapM]. rewrite Hnm, Hm. cbn.
      split; [done|]. split; [by rewrite Hl|].
      intros [|i] s' Hs'; cbn in Hs'.
      + injection Hs' as <-. by exists m.
      + by apply Hspec. }
  cbn [mbind option_bind]. eexists. split; [done|].
  unfold DQN.target_q_values. split.
  { rewrite !length_zip_with, length_map. lia. }
  intros i r s b Hr Hs Hb.
  destruct (Hmax i s Hs) as (m & Hm & Hin & Hle).
  exists (r + (1 - (if b then 1 else 0)) * DQN._discount self * m), m.
  split; [|split; [done|split; [done|]]].
  - rewrite !lookup_zip_with, Hr, list_lookup_fmap, Hb, Hm. done.
  - destruct b; ring.
Qed.

Lemma sum_one_hot_from (row : list Q) (s k : nat) (a : Z) :
  length row = k →
  sumQ (zip_with Qmult row
          (map (λ j, if decide (a = Z.of_nat j) then 1 else 0) (seq s k)))
  == if decide (Z.of_nat s ≤ a < Z.of_nat (s + k))%Z
     then default 0 (row !! (Z.to_nat a - s)%nat) else 0.
Proof.
  revert s k. induction row as [|x row IH]; intros s k Hk.
  - subst k. cbn. case_decide; [lia|reflexivity].
  - destruct k as [|k]; [done|]. injection Hk as Hk.
    cbn [seq map zip_with sumQ foldr]. fold (sumQ (zip_with Qmult row
      (map (λ j, if decide (a = Z.of_nat j) then 1 else 0) (seq (S s) k)))).
    rewrite (IH (S s) k Hk).
    destruct (decide (a = Z.of_nat s)) as [->|Hne].
    + rewrite decide_False by lia. rewrite decide_True by lia.
      replace (Z.to_nat (Z.of_nat s) - s)%nat with 0%nat by lia. cbn.
      by rewrite Qmult_1_r, Qplus_0_r.
    + destruct (decide (Z.of_nat (S s) ≤ a < Z.of_nat (S s + k))%Z)
        as [Hin|Hout].
      * rewrite decide_True by lia.
        replace (Z.to_nat a - s)%nat with (S (Z.to_nat a - S s)) by lia.
        cbn. by rewrite Qmult_0_r, Qplus_0_l.
      * rewrite decide_False by lia. by rewrite Qmult_0_r.
Qed.

Lemma sum_one_hot (row : list Q) (n_outputs : nat) (a : Z) :
  length row = n_outputs →
  sumQ (zip_with Qmult row (one_hot n_outputs a))
  == if decide (0 ≤ a < Z.of_nat n_outputs)%Z
     then default 0 (row !! Z.to_nat a) else 0.
Proof.
  intros Hk. unfold one_hot. rewrite (sum_one_hot_from row 0 n_outputs a Hk).
  rewrite Nat.sub_0_r. repeat case_decide; try lia; reflexivity.
Qed.

Lemma broadcast_mat (f : Q → Q → Q) (a b : list (list Q)) :
  Forall2 (λ r1 r2, length r1 = length r2) a b →
  Tf.broadcast f (Tf.Mat a) (Tf.Mat b)
  = Some (Tf.Mat (zip_with (zip_with f) a b)).
Proof.
  intros Hab. unfold Tf.broadcast. cbn [Tf.rows Tf.rank Nat.max].
  rewrite bzip_same_length by (by eapply Forall2_length).
  assert (mapM (λ p, Tf.bzip (λ x y, Some (f x y)) p.1 p.2) (zip a b)
          = Some (zip_with (zip_with f) a b)) as ->; [|done].
  induction Hab as [|r1 r2 a b Hr _ IH]; [done|].
  cbn [zip zip_with mapM fst snd]. rewrite bzip_total by done.
  cbn. by rewrite IH.
Qed.

Lemma masked_q_values_aligned (n_outputs : nat)
    (all_q_values : list (list Q)) (actions : list Z) :
  length all_q_values = length actions →
  Forall (λ row, length row = n_outputs) all_q_values →
  DQN.masked_q_values n_outputs all_q_values actions
  = Some (map sumQ (zip_with (zip_with Qmult) all_q_values
                      (map (one_hot n_outputs) actions))).
Proof.
  intros Hlen Hrows. unfold DQN.masked_q_values, Tf.multiply.
  rewrite broadcast_mat; [done|].
  apply Forall2_same_length_lookup. split; [by rewrite length_map|].
  intros i r1 r2 H1 H2. rewrite list_lookup_fmap in H2.
  destruct (actions !! i) as [a|]; [|done]. injection H2 as <-.
  unfold one_hot. rewrite length_map, length_seq.
  rewrite Forall_lookup in Hrows. by eapply Hrows.
Qed.

(** X11.  The Q-value that [train] selects for a sample through the
    one-hot mask is the network's Q-value of the stored action when the
    action lies in [0, n_outputs), and 0 for any other action: an action
    outside the network's outputs is not an error. *)
Theorem masked_q_values_selected (n_outputs : nat)
    (all_q_values : list (list Q)) (actions : list Z) :
  length all_q_values = length actions →
  Forall (λ row, length row = n_outputs) all_q_values →
  ∃ q_values,
    DQN.masked_q_values n_outputs all_q_values actions = Some q_values
    ∧ length q_values = length actions
    ∧ ∀ i row a,
        all_q_values !! i = Some row → actions !! i = Some a →
        ∃ q, q_values !! i = Some q
             ∧ q == if decide (0 ≤ a < Z.of_nat n_outputs)%Z
                    then default 0 (row !! Z.to_nat a) else 0.
Proof.
  intros Hlen Hrows. rewrite masked_q_values_aligned by done.
  eexists. split; [done|]. split.
  { rewrite length_map, length_zip_with, length_map. lia. }
  intros i row a Hrow Ha. eexists. split.
  - rewrite list_lookup_fmap, lookup_zip_with, Hrow, list_lookup_fmap, Ha.
    done.
  - apply sum_one_hot. rewrite Forall_lookup in Hrows. by eapply Hrows.
Qed.

(** X13.  [train] completes on every non-empty batch drawn from within
    the replay buffer, provided the network gives [n_outputs >= 1]
    Q-values per state; the stored actions need not be outputs of the
    network.  It returns the mean of the loss function on the targets and
    the selected Q-values, and leaves [n_outputs] and the discount factor
    as they were. *)
Theorem train_completes (self : DQN.Agent State)
    (optimizer : DQN.OptimizerState)
    (replay_buffer : list (DQN.Experience State)) (indices : list nat) :
  indices ≠ [] →
  Forall (λ index, (index < length replay_buffer)%nat) indices →
  (0 < DQN.n_outputs self)%nat →
  (∀ vars s, length (DQN.predict vars s) = DQN.n_outputs self) →
  ∃ batch target q_values self' optimizer',
    mapM (λ index, replay_buffer !! index) indices = Some batch
    ∧ DQN.targets_of self (map DQN.exp_reward batch)
        (map DQN.exp_next_state batch) (map DQN.exp_terminated batch)
      = Some target
    ∧ DQN.masked_q_values (DQN.n_outputs self)
        (map (DQN.predict (DQN.dqn_model self)) (map DQN.exp_state batch))
        (map DQN.exp_action batch)
      = Some q_values
    ∧ DQN.train self optimizer replay_buffer indices
      = Some (Tf.reduce_mean (DQN.loss_fn target (Tf.column q_values)),
              self', optimizer')
    ∧ DQN.n_outputs self' = DQN.n_outputs self
    ∧ DQN._discount self' = DQN._discount self.
Proof.
  intros Hne Hin Hk Hrows.
  assert (is_Some (mapM (λ index, replay_buffer !! index) indices))
    as [batch Hbatch].
  { apply mapM_is_Some. eapply Forall_impl; [exact Hin|].
    intros i Hi. by apply lookup_lt_is_Some_2. }
  assert (batch ≠ []) as Hbne.
  { apply length_mapM in Hbatch. destruct batch; [|done].
    destruct indices; [done|discriminate]. }
  assert (∀ vars (states : list State),
            Forall (λ row, length row = DQN.n_outputs self)
              (map (DQN.predict vars) states)) as Hshape.
  { intros vars states. apply Forall_forall. intros row Hrow.
    apply list_elem_of_fmap in Hrow as (s & -> & _). apply Hrows. }
  assert (is_Some (DQN.targets_of self (map DQN.exp_reward batch)
                     (map DQN.exp_next_state batch)
                     (map DQN.exp_terminated batch))) as [target Htarget].
  { unfold DQN.targets_of, DQN.predict_batch.
    destruct batch as [|e batch]; [done|]. cbn [map mbind option_bind].
    change (DQN.predict (DQN.dqn_model self) (DQN.exp_next_state e)
            :: map (DQN.predict (DQN.dqn_model self))
                 (map DQN.exp_next_state batch))
      with (map (DQN.predict (DQN.dqn_model self))
              (map DQN.exp_next_state (e :: batch))).
    assert (is_Some (mapM np_max
                       (map (DQN.predict (DQN.dqn_model self))
                          (map DQN.exp_next_state (e :: batch)))))
      as [mx ->]; [|by eexists].
    apply mapM_is_Some. eapply Forall_impl; [apply Hshape|].
    intros row Hrow. destruct row; [cbn in Hrow; lia|by eexists]. }
  pose proof (masked_q_values_aligned (DQN.n_outputs self)
                (map (DQN.predict (DQN.dqn_model self))
                   (map DQN.exp_state batch))
                (map DQN.exp_action batch)
                ltac:(by rewrite !length_map) (Hshape _ _)) as Hq.
  unfold DQN.train, DQN._sample_experiences.
  rewrite Hbatch. cbn [mbind option_bind]. rewrite Htarget.
  cbn [mbind option_bind]. unfold DQN.loss_of. rewrite Hq.
  cbn [mbind option_bind].
  destruct (DQN.apply_gradients _ _ _) as [opt' vars'].
  eexists batch, target, _, _, opt'. done.
Qed.

End Train_facts.

Lemma targets_of_spec_witness :
  let self := Toy.dqn_agent in
  ∃ targets,
    DQN.targets_of self [1; 2] [3; 0]%Z [true; false] = Some targets
    ∧ length targets = length [3; 0]%Z
    ∧ ∀ i r s (b : bool),
        [1; 2] !! i = Some r → [3; 0]%Z !! i = Some s →
        [true; false] !! i = Some b →
        ∃ y m : Q,
          targets !! i = Some y
          ∧ m ∈ DQN.predict (DQN.dqn_model self) s
          ∧ (∀ q, q ∈ DQN.predict (DQN.dqn_model self) s → q <= m)
          ∧ y == (if b then r else r + DQN._discount self * m).
Proof.
  apply (@targets_of_spec Z Toy.q_network Toy.dqn_agent [1; 2] [3; 0]%Z
           [true; false]).
  - discriminate.
  - reflexivity.
  - reflexivity.
  - intros s _. discriminate.
Defined.

Lemma masked_q_values_selected_witness :
  ∃ q_values,
    @DQN.masked_q_values 2 [[5; 7]; [1; 3]] [1; 2]%Z = Some q_values
    ∧ length q_values = length [1; 2]%Z
    ∧ ∀ i row a,
        [[5; 7]; [1; 3]] !! i = Some row → [1; 2]%Z !! i = Some a →
        ∃ q, q_values !! i = Some q
             ∧ q == if decide (0 ≤ a < Z.of_nat 2)%Z
                    then default 0 (row !! Z.to_nat a) else 0.
Proof.
  apply (masked_q_values_selected 2 [[5; 7]; [1; 3]] [1; 2]%Z).
  - reflexivity.
  - repeat constructor.
Defined.

(** ** [PPO_Agent.get_logit] *)

Lemma py_index_nonneg {A} (row : list A) (k : Z) :
  (0 ≤ k)%Z → py_index row k = row !! Z.to_nat k.
Proof. intros Hk. unfold py_index. by rewrite decide_True. Qed.

(** X12.  On one action per observation, [get_logit] reads from the
    actor's rows the very probabilities that [get_action] returns for
    those actions, each wrapped in a row of its own. *)
Theorem get_logit_single_actions (logits : list (list Q)) (a : list Z)
    (p : list Q) :
  length logits = length a →
  Categorical_prob logits a = Some p →
  PPO.get_logit logits (map (λ k, [k]) a) = Some (map (λ q, [q]) p).
Proof.
  intros Hlen Hp. unfold PPO.get_logit. rewrite length_map.
  pose proof (Categorical_prob_lookup logits a p Hlen Hp) as Hlook.
  assert (length p = length a) as Hlp.
  { unfold Categorical_prob in Hp. apply bzip_length in Hp; [lia|done]. }
  apply mapM_Some, Forall2_same_length_lookup.
  split; [by rewrite length_seq, length_map|].
  intros i j y Hj Hy. apply lookup_seq in Hj as [-> Hi]. cbn in Hi |- *.
  destruct (lookup_lt_is_Some_2 a i Hi) as [k Hk].
  destruct (Hlook i k Hk) as (row & q & Hrow & Hk0 & Hq & Hpi).
  rewrite list_lookup_fmap, Hpi in Hy. injection Hy as <-.
  rewrite Hrow, list_lookup_fmap, Hk. cbn.
  by rewrite py_index_nonneg, Hq.
Qed.

Lemma get_logit_single_actions_witness :
  PPO.get_logit [[1 # 4; 3 # 4]; [1 # 3; 2 # 3]] (map (λ k, [k]) [1; 0]%Z)
  = Some (map (λ q, [q]) [3 # 4; 1 # 3]).
Proof.
  apply (get_logit_single_actions [[1 # 4; 3 # 4]; [1 # 3; 2 # 3]]
           [1; 0]%Z [3 # 4; 1 # 3]); reflexivity.
Defined.

Lemma train_completes_witness :
  let buffer :=
    [DQN.mkExperience 0%Z 0%Z 1 1%Z false;
     DQN.mkExperience 1%Z 2%Z 1 2%Z true] in
  ∃ (batch : list (DQN.Experience Z)) (target q_values : list Q)
    (self' : @DQN.Agent Z Toy.q_network)
    (optimizer' : @DQN.OptimizerState Z Toy.q_network Toy.fitting),
    mapM (λ index, buffer !! index) [1; 0; 1]%nat = Some batch
    ∧ @DQN.targets_of Z Toy.q_network Toy.dqn_agent
        (map DQN.exp_reward batch)
        (map DQN.exp_next_state batch) (map DQN.exp_terminated batch)
      = Some target
    ∧ DQN.masked_q_values (DQN.n_outputs Toy.dqn_agent)
        (map (@DQN.predict Z Toy.q_network (DQN.dqn_model Toy.dqn_agent))
           (map DQN.exp_state batch))
        (map DQN.exp_action batch)
      = Some q_values
    ∧ @DQN.train Z Toy.q_network Toy.fitting Toy.dqn_agent O buffer
        [1; 0; 1]%nat
      = Some (Tf.reduce_mean
                (@DQN.loss_fn Z Toy.q_network Toy.fitting target
                   (Tf.column q_values)),
              self', optimizer')
    ∧ DQN.n_outputs self' = DQN.n_outputs Toy.dqn_agent
    ∧ DQN._discount self' = DQN._discount Toy.dqn_agent.
Proof.
  intros buffer.
  apply (@train_completes Z Toy.q_network Toy.fitting Toy.dqn_agent O buffer
           [1; 0; 1]%nat).
  - discriminate.
  - repeat constructor.
  - simpl; lia.
  - reflexivity.
Defined.

(** ** Completion of the rollout *)

Section Rollout_bounds.
Context {Obs : Type} {N : Networks Obs} {Smp : Sampler} {E : VectorEnv Obs}.




Lemma for_each_timestep_bound (self : PPO.Agent Obs) (n s : nat)
    (w w' : PPO.World Obs) :
  for_each (PPO.timestep self) (seq s n) w = Some w' →
  (0 < n)%nat → (s + n ≤ length (Mem.obss (PPO.m w)))%nat.
Proof.
  revert s w. induction n as [|n IH]; intros s w H Hn; [lia|].
  cbn [seq for_each] in H.
  destruct (PPO.timestep self s w) as [w1|] eqn:Hstep; [|done].
  cbn [mbind option_bind] in H.
  destruct (timestep_inv self s w w1 Hstep)
    as (a & p & _ & Hs & _ & _ & Ho & _).
  destruct n as [|n]; [lia|].
  apply IH in H; [|lia]. rewrite Ho, length_insert in H. lia.
Qed.


(** X15.  A rollout that completes had [single_batch_ts >= 1] and a
    buffer of at least [single_batch_ts] rows: with no timestep the final
    write finds [t] unbound, and with too few rows a write is out of
    range. *)
Theorem rollout_needs_rows (self : PPO.Agent Obs) (T : nat)
    (w w' : PPO.World Obs) :
  PPO.rollout self T w = Some w' →
  (0 < T ≤ length (Mem.obss (PPO.m w)))%nat.
Proof.
  unfold PPO.rollout. intros H.
  destruct (for_each _ _ w) as [w1|] eqn:Hloop; [|done].
  cbn [mbind option_bind] in H.
  destruct T as [|T]; [done|].
  apply for_each_timestep_bound in Hloop; lia.
Qed.

End Rollout_bounds.



Lemma rollout_needs_rows_witness :
  ∃ w', PPO.rollout (Toy.agent (1 # 5)) 3 (Toy.world 3 0) = Some w'
        ∧ (0 < 3 ≤ length (Mem.obss (PPO.m (Toy.world 3 0))))%nat.
Proof.
  eexists. split; [vm_compute; reflexivity|].
  eapply (rollout_needs_rows (Toy.agent (1 # 5)) 3 (Toy.world 3 0)).
  vm_compute; reflexivity.
Defined.

(** ** The combined query *)

Section Combined_query.
Context {Obs : Type} {N : Networks Obs} {Smp : Sampler}.

(** X16.  [get_action_and_value] returns the action and probability that
    [get_action] returns for the same arguments and generator, paired with
    the result of [get_value]; it fails exactly when [get_action] does. *)
Theorem get_action_and_value_agrees (self : PPO.Agent Obs) (x : list Obs)
    (action : option (list Z)) (g : Rng) :
  PPO.get_action_and_value self x action g
  = ('(a, prob, g') ← PPO.get_action self x action g;
     Some ((a, prob, PPO.get_value self x), g')).
Proof.
  unfold PPO.get_action_and_value, PPO.get_action, PPO.get_action_with,
    PPO.get_value.
  destruct action as [a|].
  - by destruct (Categorical_prob _ a).
  - destruct (categorical_sample g _) as [a g'].
    by destruct (Categorical_prob _ a).
Qed.

End Combined_query.
